(** * Elsevier XML reader: a shallow embedding and its properties

    The development follows [chemdataextractor/reader/elsevier.py]:
    the schema detector, the two whitespace passes, the metadata mapper,
    the table reconstructor, the figure resolver and [parse].  The
    definitions come first, then the notions used in the statements, a
    concrete reader with sample documents, and the properties.

    Python values are modelled as follows.
    - [str] and [bytes] are [string] (sequences of 8-bit characters);
      an optional value ([None] or a string) is [option string].
    - an lxml element is a rose tree [element] with tag, attributes,
      text, tail and children.
    - a [dict] is a [gmap]; [sorted(d)] is the sorted list of its keys.
    - a call that may raise returns a [result]: [Ok v] or [Raise e]. *)

From Stdlib Require Import ZArith String Ascii List Lia.
From stdpp Require Import base option list gmap strings sorting fin_maps.

(** ** Python exceptions and fallible results *)

Inductive exn : Set :=
| ReaderError
| IndexError
| KeyError
| ValueError
| TypeError
| AttributeError
| UnboundLocalError.

Inductive result (A : Type) : Type :=
| Ok (a : A)
| Raise (e : exn).
Arguments Ok {A} a.
Arguments Raise {A} e.

Global Instance result_ret : MRet result := fun A a => Ok a.
Global Instance result_bind : MBind result := fun A B f m =>
  match m with
  | Ok a => f a
  | Raise e => Raise e
  end.

Global Instance result_fmap : FMap result := fun A B f m =>
  match m with
  | Ok a => Ok (f a)
  | Raise e => Raise e
  end.

Global Instance exn_eq_dec : EqDecision exn.
Proof. solve_decision. Defined.

(** [for x in xs: s = body(x, s)] where the body may raise. *)
Fixpoint for_each {A S : Type} (body : A -> S -> result S) (xs : list A) (s : S)
  : result S :=
  match xs with
  | [] => Ok s
  | x :: xs' =>
      match body x s with
      | Ok s' => for_each body xs' s'
      | Raise e => Raise e
      end
  end.

(** [xs[0]] *)
Definition index0 {A : Type} (xs : list A) : result A :=
  match xs with
  | [] => Raise IndexError
  | x :: _ => Ok x
  end.

(** ** Python strings *)

Module Py.

(** Truth value of a string that may be [None]: [None] and [''] are false. *)
Definition truthy (o : option string) : bool :=
  match o with
  | Some (String _ _) => true
  | _ => false
  end.

(** [(o or '')] *)
Definition or_empty (o : option string) : string :=
  match o with
  | Some s => s
  | None => ""
  end.

(** [s.startswith(p)] *)
Fixpoint startswith (p s : string) : bool :=
  match p with
  | EmptyString => true
  | String a p' =>
      match s with
      | EmptyString => false
      | String b s' => if decide (a = b) then startswith p' s' else false
      end
  end.

(** [s.endswith(p)] *)
Definition endswith (p s : string) : bool :=
  startswith (String.rev p) (String.rev s).

(** [needle in hay] for two strings (or two byte strings). *)
Fixpoint contains (needle hay : string) : bool :=
  match hay with
  | EmptyString => startswith needle hay
  | String _ hay' => startswith needle hay || contains needle hay'
  end.

(** [s[n:]] *)
Fixpoint drop_chars (n : nat) (s : string) : string :=
  match n, s with
  | O, _ => s
  | S n', String _ s' => drop_chars n' s'
  | S _, EmptyString => EmptyString
  end.

(** [s.split(sep)] for a non-empty separator: the pieces between the
    non-overlapping occurrences of [sep], scanned from the left.  [skip]
    counts the characters of a matched separator still to pass over and
    [cur] holds the current piece in reverse. *)
Fixpoint split_go (sep : string) (skip : nat) (cur : string) (s : string)
  : list string :=
  match s with
  | EmptyString => [String.rev cur]
  | String a s' =>
      match skip with
      | S k => split_go sep k cur s'
      | O =>
          if startswith sep s
          then String.rev cur :: split_go sep (String.length sep - 1) "" s'
          else split_go sep 0 (String a cur) s'
      end
  end.

Definition split (sep s : string) : list string := split_go sep 0 "" s.

(** Characters for which [str.isspace] holds, among the first 256. *)
Definition is_space (a : ascii) : bool :=
  let n := nat_of_ascii a in
  ((9 <=? n) && (n <=? 13)) || ((28 <=? n) && (n <=? 32))
  || (n =? 133) || (n =? 160).

(** [s.isspace()]: non-empty and made of whitespace only. *)
Fixpoint all_space (s : string) : bool :=
  match s with
  | EmptyString => true
  | String a s' => is_space a && all_space s'
  end.

Definition isspace (s : string) : bool :=
  match s with
  | EmptyString => false
  | _ => all_space s
  end.

(** [s.strip()] *)
Fixpoint lstrip (s : string) : string :=
  match s with
  | String a s' => if is_space a then lstrip s' else s
  | EmptyString => EmptyString
  end.

Definition strip (s : string) : string :=
  String.rev (lstrip (String.rev (lstrip s))).

Definition is_digit (a : ascii) : bool :=
  let n := nat_of_ascii a in (48 <=? n) && (n <=? 57).

Definition digit_val (a : ascii) : Z := Z.of_nat (nat_of_ascii a - 48).

(** The value of a digit string read from the left.  The digits may be
    grouped by single underscores, each between two digits; [None] for
    any other character. *)
Fixpoint digits_go (acc : Z) (s : string) : option Z :=
  match s with
  | EmptyString => Some acc
  | String a s' =>
      if is_digit a then digits_go (10 * acc + digit_val a)%Z s'
      else if decide (a = "_"%char) then
        match s' with
        | String b _ => if is_digit b then digits_go acc s' else None
        | EmptyString => None
        end
      else None
  end.

Definition digits (s : string) : option Z :=
  match s with
  | String a _ => if is_digit a then digits_go 0%Z s else None
  | EmptyString => None
  end.

(** [int(s)] for a string: surrounding whitespace is ignored, one sign is
    allowed, the rest has to be a non-empty run of decimal digits, which
    single underscores may group; anything else raises [ValueError]. *)
Definition int (s : string) : result Z :=
  let body :=
    match strip s with
    | String "+" r => digits r
    | String "-" r => Z.opp <$> digits r
    | r => digits r
    end in
  match body with
  | Some z => Ok z
  | None => Raise ValueError
  end.

End Py.

(** ** The source tree *)

(** An lxml element: [el.tag], [el.attrib], [el.text], [el.tail] and the
    child elements [el[:]].  A tag is written with the prefix that the
    reader registers for its namespace, as in the paths of the source
    ([ce:hsp]); an attribute name is the key of [el.attrib]. *)
#[local] Unset Elimination Schemes.
Inductive element : Type :=
  Element {
      tag : string;
      attrib : gmap string string;
      text : option string;
      tail : option string;
      children : list element
    }.
#[local] Set Elimination Schemes.

(** [el.get(name, default)] *)
Definition get_attr (el : element) (name default : string) : string :=
  match attrib el !! name with
  | Some v => v
  | None => default
  end.

(** [self.name] for a class attribute that may not be defined. *)
Definition class_attr (value : option string) : result string :=
  match value with
  | Some v => Ok v
  | None => Raise AttributeError
  end.

(** [el.attrib[name]] *)
Definition attrib_item (el : element) (name : string) : result string :=
  match attrib el !! name with
  | Some v => Ok v
  | None => Raise KeyError
  end.

(** ** Whitespace passes *)

(** The tag selected by the path [.//ce:hsp]. *)
Definition splice_tag : string := "ce:hsp".

Definition is_splice (tg : string) : bool := bool_decide (tg = splice_tag).

(** What a splice node sees to its left while the pass runs: the text
    of its parent and the siblings before it, nearest first.  The head
    of the list is [el.getprevious()]; the empty list stands for
    [previous is None]. *)
Definition left_context : Type := option string * list element.

Definition set_tail (el : element) (t : option string) : element :=
  Element (tag el) (attrib el) (text el) t (children el).

(** The first half of the loop body, for [el.text]:
<<
    if el.text and isinstance(el.tag, six.string_types):
        if previous is None:
            if parent.text:
                if parent.text.endswith(' '):
                    parent.text = (parent.text or '') + '' + el.text
                else:
                    parent.text = (parent.text or '') + ' ' + el.text
        else:
            if previous.tail:
                if previous.tail.endswith(' '):
                    previous.tail = (previous.tail or '') + '' + el.text
                else:
                    previous.tail = (previous.tail or '') + ' ' + el.text
>>
    The tag of a node selected by the path is always a string. *)
Definition merge_text (el_text : option string) (st : left_context)
  : left_context :=
  let '(parent_text, prevs) := st in
  if Py.truthy el_text then
    match prevs with
    | [] =>
        if Py.truthy parent_text then
          if Py.endswith " " (Py.or_empty parent_text)
          then (Some (Py.or_empty parent_text +:+ "" +:+ Py.or_empty el_text), prevs)
          else (Some (Py.or_empty parent_text +:+ " " +:+ Py.or_empty el_text), prevs)
        else st
    | previous :: before =>
        if Py.truthy (tail previous) then
          if Py.endswith " " (Py.or_empty (tail previous))
          then (parent_text,
                set_tail previous
                  (Some (Py.or_empty (tail previous) +:+ "" +:+ Py.or_empty el_text))
                  :: before)
          else (parent_text,
                set_tail previous
                  (Some (Py.or_empty (tail previous) +:+ " " +:+ Py.or_empty el_text))
                  :: before)
        else st
    end
  else st.

(** The second half, for [el.tail], when the node has no children:
<<
    elif previous is None:
        if el.tail.startswith(' '):
            parent.text = (parent.text or '') + '' + el.tail
        else:
            parent.text = (parent.text or '') + ' ' + el.tail
    else:
        if el.tail.startswith(' '):
            previous.tail = (previous.tail or '') + '' + el.tail
        else:
            previous.tail = (previous.tail or '') + ' ' + el.tail
>> *)
Definition merge_tail (el_tail : option string) (st : left_context)
  : left_context :=
  let '(parent_text, prevs) := st in
  if Py.truthy el_tail then
    match prevs with
    | [] =>
        if Py.startswith " " (Py.or_empty el_tail)
        then (Some (Py.or_empty parent_text +:+ "" +:+ Py.or_empty el_tail), prevs)
        else (Some (Py.or_empty parent_text +:+ " " +:+ Py.or_empty el_tail), prevs)
    | previous :: before =>
        if Py.startswith " " (Py.or_empty el_tail)
        then (parent_text,
              set_tail previous
                (Some (Py.or_empty (tail previous) +:+ "" +:+ Py.or_empty el_tail))
                :: before)
        else (parent_text,
              set_tail previous
                (Some (Py.or_empty (tail previous) +:+ " " +:+ Py.or_empty el_tail))
                :: before)
    end
  else st.

(** [last.tail = (last.tail or '') + el.tail], done only [if el.tail]. *)
Definition with_extra (tl extra : option string) : option string :=
  if Py.truthy extra then Some (Py.or_empty tl +:+ Py.or_empty extra) else tl.

(** The pass over one node and the nodes below it, in document order.

    The source walks the list of all splice nodes and rewrites the tree
    in place.  When it reaches a node, every node before it in document
    order has been dealt with, so the node's parent is its nearest
    ancestor that is not spliced out and its previous sibling is the
    last node kept so far under that parent: this is the [left_context].
    - A splice node merges its text and tail to the left and is replaced
      by its children ([parent[index:index + 1] = el[:]]), which are then
      visited with the same parent.  A splice node with children hands
      its tail to its last child; [extra] is the tail so received.
    - Any other node is kept: the nodes below it are visited with the
      node as parent, and the node becomes the previous sibling of what
      follows. *)
Fixpoint splice_el (extra : option string) (el : element) (st : left_context)
  {struct el} : left_context :=
  match el with
  | Element tg at_ tx tl kids =>
      let tl' := with_extra tl extra in
      if is_splice tg then
        let st1 := merge_text tx st in
        match kids with
        | [] => merge_tail tl' st1
        | _ :: _ =>
            (fix go (ks : list element) (st : left_context) : left_context :=
               match ks with
               | [] => st
               | [k] => splice_el tl' k st
               | k :: ks' => go ks' (splice_el None k st)
               end) kids st1
        end
      else
        let inner :=
          (fix go (ks : list element) (st : left_context) : left_context :=
             match ks with
             | [] => st
             | k :: ks' => go ks' (splice_el None k st)
             end) kids (tx, []) in
        (fst st, Element tg at_ (fst inner) tl' (rev (snd inner)) :: snd st)
  end.

(** The children of a kept node, visited from the left. *)
Definition splice_children (kids : list element) (st : left_context)
  : left_context :=
  fold_left (fun st k => splice_el None k st) kids st.

(** [fix_elsevier_xml_whitespace(document)]: the path [.//ce:hsp] selects
    below [document] only, so [document] itself is kept whatever its
    tag, and every selected node has a parent. *)
Definition fix_elsevier_xml_whitespace (document : element) : element :=
  let inner := splice_children (children document) (text document, []) in
  Element (tag document) (attrib document) (fst inner) (tail document)
    (rev (snd inner)).

(** [if str(t).isspace(): t = '']; [str(None)] is ['None']. *)
Definition clear_space (t : option string) : option string :=
  match t with
  | Some s => if Py.isspace s then Some "" else t
  | None => None
  end.

(** [els_xml_whitespace(document)].  The path [//*] selects every node
    of the tree; [document] stands for that tree. *)
Fixpoint els_xml_whitespace (document : element) : element :=
  match document with
  | Element tg at_ tx tl kids =>
      Element tg at_ (clear_space tx) (clear_space tl)
        (map els_xml_whitespace kids)
  end.

(** ** Output elements *)

(** The text-bearing output classes of the document model.  An output
    text element is its class and its text. *)
Inductive element_cls : Set :=
| ClsTitle
| ClsHeading
| ClsCaption
| ClsCitation
| ClsCell.

Record text_element : Type :=
  TextElement { cls : element_cls; content : string }.

Definition Cell (s : string) : text_element := TextElement ClsCell s.
Definition Caption (s : string) : text_element := TextElement ClsCaption s.

Global Instance text_element_inhabited : Inhabited text_element :=
  populate (Cell "").

(** The truth value of an output cell.  A cell is an object of the
    document model (not part of this module), whose class gives it
    neither [__bool__] nor [__len__]: like any such object it is true,
    whatever its text. *)
Definition cell_truthy (c : text_element) : bool := true.

(** ** The table grid *)

(** [hdict]: row number to (column number to cell). *)
Abbreviation grid := (gmap nat (gmap nat text_element)).

(** [sorted(d)] for a dict with integer keys. *)
Definition sorted_keys {A : Type} (d : gmap nat A) : list nat :=
  merge_sort Nat.le (map fst (map_to_list d)).

(** [while colnum in d: colnum += 1], as a search bounded by [fuel]. *)
Fixpoint next_free (fuel : nat) (d : gmap nat text_element) (colnum : nat)
  : nat :=
  match fuel with
  | O => colnum
  | S fuel' =>
      match d !! colnum with
      | Some _ => next_free fuel' d (S colnum)
      | None => colnum
      end
  end.

(** The loop leaves at the latest after as many steps as the row has
    entries; [skip_occupied_free] below shows that the bound is enough. *)
Definition skip_occupied (d : gmap nat text_element) (colnum : nat) : nat :=
  next_free (S (size d)) d colnum.

(** The body of the innermost loop, for one [j]:
<<
    rownum = row + j
    if not rownum in hdict: hdict[rownum] = {}
    while colnum in hdict[rownum]: colnum += 1
    hdict[rownum][colnum] = cell[0]
>> *)
Definition place (cell : text_element) (row : nat) (st : grid * nat) (j : nat)
  : grid * nat :=
  let '(hdict, colnum) := st in
  let rownum := row + j in
  let hdict1 :=
    match hdict !! rownum with
    | Some _ => hdict
    | None => <[rownum := ∅]> hdict
    end in
  let d := default ∅ (hdict1 !! rownum) in
  let colnum' := skip_occupied d colnum in
  (<[rownum := <[colnum' := cell]> d]> hdict1, colnum').

(** [range(n)] for an integer [n]: empty when [n <= 0]. *)
Definition range (n : Z) : list nat := seq 0 (Z.to_nat n).

(** The two span loops of one source cell:
<<
    for i in range(colspan):
        for j in range(rowspan):
            ...
        colnum += 1
>> *)
Definition span_step (cell : text_element) (row : nat) (rowspan : Z)
  (st : grid * nat) (i : nat) : grid * nat :=
  let '(hdict, colnum) := fold_left (place cell row) (range rowspan) st in
  (hdict, S colnum).

Definition span_loops (cell : text_element) (row : nat) (colspan rowspan : Z)
  (st : grid * nat) : grid * nat :=
  fold_left (span_step cell row rowspan) (range colspan) st.

(** [int([i for i in td.get(name, '1').split('col') if i][0])] *)
Definition nonempty (s : string) : bool :=
  match s with
  | EmptyString => false
  | String _ _ => true
  end.

Definition parse_colname (td : element) (name : string) : result Z :=
  part ← index0 (filter (fun i => nonempty i = true) (Py.split "col" (get_attr td name "1")));
  Py.int part.

(** The span of a cell, [(colspan, rowspan)], in the order the source
    evaluates the attributes. *)
Definition cell_span (td : element) : result (Z * Z) :=
  namest ← parse_colname td "namest";
  nameend ← parse_colname td "nameend";
  let colspan := ((nameend - namest) + 1)%Z in
  morerows ← Py.int (get_attr td "morerows" "0");
  Ok (colspan, (morerows + 1)%Z).

(** The rows read off the grid:
<<
    for row in sorted(hdict):
        rows.append([])
        for col in sorted(hdict[row]):
            rows[-1].append(hdict[row][col])
>> *)
Definition row_cells (d : gmap nat text_element) : list text_element :=
  map (fun col => d !!! col) (sorted_keys d).

Definition grid_rows (hdict : grid) : list (list text_element) :=
  map (fun row => row_cells (hdict !!! row)) (sorted_keys hdict).

(** [max(rows, key=len)]: the first row of greatest length ([best] is
    the longest row seen so far). *)
Fixpoint max_by_len {A : Type} (best : list A) (rows : list (list A))
  : list A :=
  match rows with
  | [] => best
  | r :: rows' =>
      if length best <? length r then max_by_len r rows'
      else max_by_len best rows'
  end.

Definition max_row {A : Type} (rows : list (list A)) : list A :=
  match rows with
  | [] => []
  | r :: rows' => max_by_len r rows'
  end.

(** The padding loop, which extends the rows in place one after the
    other; [done] are the rows already extended, [todo] the others:
<<
    for r in rows:
        r.extend([Cell('')] * (len(max(rows, key=len)) - len(r)))
>>
    [max] is only called on a non-empty [rows]. *)
Fixpoint pad_loop (done todo : list (list text_element))
  : list (list text_element) :=
  match todo with
  | [] => done
  | r :: todo' =>
      let width := length (max_row (done ++ r :: todo')) in
      pad_loop (done ++ [r ++ replicate (width - length r) (Cell "")]) todo'
  end.

(** [any(r)] *)
Definition any (r : list text_element) : bool := existsb cell_truthy r.

(** From the grid to the returned rows. *)
Definition finish_rows (hdict : grid) : list (list text_element) :=
  filter (fun r => any r = true) (pad_loop [] (grid_rows hdict)).

(** ** Figures, metadata and the document *)

Record figure : Type :=
  Figure { fig_caption : text_element; fig_url : string; fig_id : string }.

(** The field mapping handed to [MetaData]. *)
Record metadata : Type :=
  MetaData {
      _title : option string;
      _authors : option (list (option string));
      _publisher : option string;
      _journal : option string;
      _date : option string;
      _language : option string;
      _volume : option string;
      _issue : option string;
      _firstpage : option string;
      _lastpage : option string;
      _doi : option string;
      _pdf_url : option string;
      _html_url : option string
    }.

(** What the document is made of.  Tables and reference markers are
    built by the base reader. *)
Inductive doc_element : Type :=
| DText (t : text_element)
| DTable (caption : text_element) (rows : list (list text_element))
| DFigure (f : figure)
| DMeta (m : metadata)
| DReference (marker : string).

Record document : Type := Document { elements : list doc_element }.

(** [refs], a [defaultdict(list)] keyed by a node or [None], is kept as
    the sequence of its [extend] calls; [specials], a [dict] keyed by a
    node, as the sequence of its assignments, latest first.  A node is
    represented by the subtree it roots. *)
Definition Refs : Type := list (option element * list doc_element).
Definition Specials : Type := list (element * list doc_element).

(** A table as [_find_table] yields it: a node, or a tuple of nodes. *)
Inductive table_ref : Type :=
| TableNode (el : element)
| TableTuple (els : list element).

(** [a + b] where [b] may be [None] *)
Definition str_add (a : string) (b : option string) : result string :=
  match b with
  | Some s => Ok (a +:+ s)
  | None => Raise TypeError
  end.

(** [x in t] where [t] may be [None] *)
Definition str_in (x : string) (t : option string) : result bool :=
  match t with
  | Some s => Ok (Py.contains x s)
  | None => Raise TypeError
  end.

(** A list comprehension whose condition may raise. *)
Fixpoint filter_r {A : Type} (cond : A -> result bool) (xs : list A)
  : result (list A) :=
  match xs with
  | [] => Ok []
  | x :: xs' =>
      b ← cond x;
      rest ← filter_r cond xs';
      Ok (if b : bool then x :: rest else rest)
  end.

Definition dquote : string := String "034"%char EmptyString.

(** ** The reader *)

(** The base reader class is not part of this module.  Its methods are
    parameters of the development, as are the selectors that the class
    inherits. *)
Section Reader.

(** [self._css(selector, el)]: the nodes under [el] that match. *)
Variable _css : string -> element -> list element.

(** Modelled from the spec: "convert text-bearing node (with reference
    map, special-region map) to output element".  The base method
    returns a list holding that one element, of which the source takes
    item [0]. *)
Variable _parse_text :
  element -> Refs -> Specials -> element_cls -> text_element.

Definition root_css : string := "default|full-text-retrieval-response".
Definition title_css : string := "dc|title".
Definition heading_css : string := "ce|section-title".
Definition table_cell_css : string := "ce|entry".
Definition figure_css : string := "ce|figure".
Definition figure_caption_css : string := "ce|figure ce|caption".
Definition figure_link_css : string := "ce|figure ce|link".
Definition reference_css : string := "ce|cross-ref, ce|cross-refs".
Definition citation_css : string := "ce|bib-reference".

Definition metadata_title_css : string := "xocs|normalized-article-title".
Definition metadata_author_css : string := "xocs|normalized-first-auth-surname".
Definition metadata_journal_css : string := "xocs|srctitle".
Definition metadata_volume_css : string :=
  "xocs|vol-first, xocs|volume-list xocs|volume".
Definition metadata_issue_css : string :=
  "xocs|issns xocs|issn-primary-formatted".
Definition metadata_publisher_css : string := "xocs|copyright-line".
Definition metadata_date_css : string :=
  "xocs|available-online-date, xocs|orig-load-date".
Definition metadata_firstpage_css : string := "xocs|first-fp".
Definition metadata_lastpage_css : string := "xocs|last-lp".
Definition metadata_doi_css : string := "xocs|doi, xocs|eii".
Definition metadata_pii_css : string := "xocs|pii-unformatted".

(** Three selectors that [_parse_metadata] reads from [self] and that
    the class body does not define.  [None] stands for an attribute
    that the reader the class extends does not define either, which
    is how the class ships ([undefined_css] below); a subclass can
    add them. *)
Variables metadata_language_css metadata_pdf_url_css metadata_html_url_css
  : option string.

Definition ignore_css : string :=
  "ce|bibliography, ce|acknowledgment, ce|correspondence, ce|author, ce|doi, ja|jid, ja|aid, ce|pii, xocs|oa-sponsor-type, xocs|open-access, default|openaccess,"
  +:+ "default|openaccessArticle, dc|format, dc|creator, dc|identifier,"
  +:+ "default|eid, default|pii, xocs|meta, xocs|ref-info, default|scopus-eid,"
  +:+ "xocs|normalized-srctitle,"
  +:+ "xocs|eid, xocs|hub-eid, xocs|normalized-first-auth-surname,"
  +:+ "xocs|normalized-first-auth-initial, xocs|refkeys,"
  +:+ "xocs|attachment-eid, xocs|attachment-type,"
  +:+ "ja|jid, ce|given-name, ce|surname, ce|affiliation, ce|cross-refs, ce|cross-ref,"
  +:+ "ce|grant-sponsor, ce|grant-number, prism|copyright,"
  +:+ "xocs|pii-unformatted, xocs|ucs-locator, ce|copyright,"
  +:+ "prism|publisher, prism|*, xocs|copyright-line, xocs|cp-notice,"
  +:+ "dc|description".

Definition url_prefix : string :=
  "https://sciencedirect.com/science/article/pii/".

(** *** detect *)

Definition elsevier_ns : string :=
  "xmlns=" +:+ dquote +:+ "http://www.elsevier.com/xml/svapi/article/dtd"
  +:+ dquote.

(** [fname] is [None] or a string; both [None] and [''] count as no
    filename in the first test. *)
Definition detect (fstring : string) (fname : option string) : bool :=
  if Py.truthy fname && negb (Py.endswith ".xml" (Py.or_empty fname))
  then false
  else if Py.contains elsevier_ns fstring then true
  else false.

(** *** _parse_metadata *)

(** [x[0].text if x else None] *)
Definition first_text (x : list element) : option string :=
  match x with
  | [] => None
  | e :: _ => text e
  end.

(** The selections are made in the order of the source; reading a
  selector that is not defined raises [AttributeError] before anything
  is selected with it.  Of the fields, only the two URL fields can
  raise: [prefix + x[0].text if x else ...] adds the text of the
  first match, which may be [None], to the prefix, and the fallback
  of the HTML URL takes [pii[0]]. *)
Definition _parse_metadata (el : element) (refs : Refs)
  (specials : Specials) : result (list metadata) :=
  let title := _css metadata_title_css el in
  let authors := _css metadata_author_css el in
  let publisher := _css metadata_publisher_css el in
  let journal := _css metadata_journal_css el in
  let date := _css metadata_date_css el in
  language_css ← class_attr metadata_language_css;
  let language := _css language_css el in
  let volume := _css metadata_volume_css el in
  let issue := _css metadata_issue_css el in
  let firstpage := _css metadata_firstpage_css el in
  let lastpage := _css metadata_lastpage_css el in
  let doi := _css metadata_doi_css el in
  let pii := _css metadata_pii_css el in
  pdf_url_css ← class_attr metadata_pdf_url_css;
  let pdf_url := _css pdf_url_css el in
  html_url_css ← class_attr metadata_html_url_css;
  let html_url := _css html_url_css el in
  pdf ←
    match pdf_url with
    | e :: _ => Some <$> str_add url_prefix (text e)
    | [] => Ok None
    end;
  html ←
    match html_url with
    | e :: _ => str_add url_prefix (text e)
    | [] => p ← index0 pii; str_add url_prefix (text p)
    end;
  Ok [ MetaData
         (first_text title)
         (match authors with [] => None | _ => Some (map text authors) end)
         (first_text publisher)
         (first_text journal)
         (first_text date)
         (first_text language)
         (first_text volume)
         (first_text issue)
         (first_text firstpage)
         (first_text lastpage)
         (first_text doi)
         pdf
         (Some html) ].

(** *** _parse_table_rows *)

(** One source cell of the row loop. *)
Definition table_cell (refs : Refs) (specials : Specials) (row : nat)
  (td : element) (st : grid * nat) : result (grid * nat) :=
  let cell := _parse_text td refs specials ClsCell in
  '(colspan, rowspan) ← cell_span td;
  Ok (span_loops cell row colspan rowspan st).

(** One row: [colnum = 0], then the cells in document order. *)
Definition table_row (refs : Refs) (specials : Specials)
  (rtr : nat * element) (hdict : grid) : result grid :=
  let '(row, tr) := rtr in
  fst <$> for_each (table_cell refs specials row)
            (_css table_cell_css tr) (hdict, 0).

(** [enumerate(els)] *)
Definition enumerate {A : Type} (xs : list A) : list (nat * A) :=
  zip (seq 0 (length xs)) xs.

Definition table_grid (els : list element) (refs : Refs)
  (specials : Specials) : result grid :=
  for_each (table_row refs specials) (enumerate els) ∅.

Definition _parse_table_rows (els : list element) (refs : Refs)
  (specials : Specials) : result (list (list text_element)) :=
  finish_rows <$> table_grid els refs specials.

(** *** _parse_figure *)

Definition img_filetypes_css : string := "xocs|attachment xocs|filename".

(** [filename] is a node or the string ['']; [filename.text] exists
    for a node only. *)
Definition filename_text (filename : element + string)
  : result (option string) :=
  match filename with
  | inl e => Ok (text e)
  | inr _ => Raise AttributeError
  end.

(** [img_id] is a string in both branches of its assignment, so the
  test [img_id is not None] holds; were it [None], [img_url] would be
  read without having been assigned. *)
Definition _parse_figure (el root : element) (refs : Refs)
  (specials : Specials) : result (list figure) :=
  let filenames := _css img_filetypes_css root in
  let caps := _css figure_caption_css el in
  let caption :=
    match caps with
    | c :: _ => _parse_text c refs specials ClsCaption
    | [] => Caption ""
    end in
  let link := _css figure_link_css el in
  img_id ←
    match link with
    | l :: _ => Some <$> attrib_item l "locator"
    | [] => Ok (Some "")
    end;
  img_url ←
    match img_id : option string with
    | Some id =>
        filename_candidates ←
          filter_r (fun filename =>
                      a ← str_in id (text filename);
                      if a : bool then str_in "_lrg" (text filename)
                      else Ok false)
            filenames;
        let filename : element + string :=
          match filename_candidates with
          | f :: _ => inl f
          | [] => inr ""
          end in
        l ← index0 link;
        href ← attrib_item l "{http://www.w3.org/1999/xlink}href";
        part ← index0 (Py.split "/" href);
        let pii := Py.drop_chars 4 part in
        t ← filename_text filename;
        str_add ("https://ars.els-cdn.com/content/image/1-s2.0-" +:+ pii +:+ "-") t
    | None => Raise UnboundLocalError
    end;
  Ok [ Figure caption img_url (Py.or_empty img_id) ].

(** *** parse *)

(** The tree builder ([None] when no tree can be built), the two
    cleaners defined elsewhere, and the base methods that [parse]
    drives.  [_parse_table] receives the row reconstruction it
    dispatches to. *)
Variable _make_tree : string -> option element.
Variables clean strip_els_xml : element -> element.
Variable getparent : element -> option element.
Variable _find_table : element -> list table_ref.
Variable _parse_reference : element -> list doc_element.
Variable _parse_table :
  (list element -> Refs -> Specials -> result (list (list text_element))) ->
  table_ref -> Refs -> Specials -> result (list doc_element).
Variable _parse_element : element -> Specials -> Refs -> list doc_element.

(** [cleaners = [clean, fix_elsevier_xml_whitespace, els_xml_whitespace,
    strip_els_xml]], each rewriting the tree in place. *)
Definition cleaners : list (element -> element) :=
  [clean; fix_elsevier_xml_whitespace; els_xml_whitespace; strip_els_xml].

Definition run_cleaners (root : element) : element :=
  fold_left (fun r cleaner => cleaner r) cleaners root.

(** [for x in xs: specials[x] = self._parse_text(x, element_cls=c, ...)] *)
Definition text_regions (c : element_cls) (refs : Refs) (xs : list element)
  (specials : Specials) : Specials :=
  fold_left (fun sp x => (x, [DText (_parse_text x refs sp c)]) :: sp)
    xs specials.

Definition figure_region (root : element) (refs : Refs) (fig : element)
  (specials : Specials) : result Specials :=
  f ← _parse_figure fig root refs specials;
  Ok ((fig, map DFigure f) :: specials).

(** [tab_id = table[0] if type(table) == tuple else table] *)
Definition table_region (refs : Refs) (table : table_ref)
  (specials : Specials) : result Specials :=
  tab_id ←
    match table with
    | TableTuple els => index0 els
    | TableNode el => Ok el
    end;
  t ← _parse_table _parse_table_rows table refs specials;
  Ok ((tab_id, t) :: specials).

(** The printout of the tree after the root is found has no effect on
  the result and is left out. *)
Definition parse (fstring : string) : result document :=
  match _make_tree fstring with
  | None => Raise ReaderError
  | Some tree =>
      root ← index0 (_css root_css tree);
      let root := run_cleaners root in
      let titles := _css title_css root in
      let headings := _css heading_css root in
      let figures := _css figure_css root in
      let tables := _find_table root in
      let citations := _css citation_css root in
      let references := _css reference_css root in
      let ignores := _css ignore_css root in
      let refs : Refs :=
        map (fun reference =>
               (getparent reference, _parse_reference reference))
          references in
      let specials : Specials := rev (map (fun ig => (ig, [])) ignores) in
      let specials := text_regions ClsTitle refs titles specials in
      let specials := text_regions ClsHeading refs headings specials in
      specials ← for_each (figure_region root refs) figures specials;
      specials ← for_each (table_region refs) tables specials;
      let specials := text_regions ClsCitation refs citations specials in
      Ok (Document (_parse_element root specials refs))
  end.

End Reader.


(** ** Notions used in the statements *)

(** *** Splice nodes *)

(** A tree without splice nodes. *)
Fixpoint hsp_free (el : element) : bool :=
  match el with
  | Element tg _ _ _ kids => negb (is_splice tg) && forallb hsp_free kids
  end.

(** A splice node without children. *)
Definition hsp (attrs : gmap string string) (tx tl : option string) : element :=
  Element splice_tag attrs tx tl [].


(** *** The grid *)

(** The cell at grid position [(row, col)], if any. *)
Definition cell_at (hdict : grid) (row col : nat) : option text_element :=
  hdict !! row ≫= (fun d => d !! col).

(** The grid is a staircase from [row] on when, in the rows from [row]
    on, a column occupied in a row is occupied in the row above. *)
Definition staircase (row : nat) (hdict : grid) : Prop :=
  forall r c, row <= r ->
    is_Some (cell_at hdict (S r) c) -> is_Some (cell_at hdict r c).

(** What is in the grid stays there. *)
Definition grid_le (hdict hdict' : grid) : Prop :=
  forall r c v, cell_at hdict r c = Some v -> cell_at hdict' r c = Some v.

(** The same padding in the words of the spec: "determine the maximum
    row width across all rows; pad every shorter row on the right with
    empty cells to that width". *)
Definition max_width {A : Type} (rows : list (list A)) : nat :=
  foldr Nat.max 0 (map length rows).

Definition pad_to (width : nat) (r : list text_element) : list text_element :=
  r ++ replicate (width - length r) (Cell "").

(** The grid in which every row of [raw] that has cells lies at its
    own index, its cells at theirs. *)
Definition raw_grid (raw : list (list text_element)) : grid :=
  omap (fun cs => match cs with [] => None | _ :: _ => Some (map_seq 0 cs) end)
    (map_seq 0 raw : gmap nat (list text_element)).

(** The raw layout of a table: the converted cells of each row, in
    document order. *)
Definition raw_layout (_css : string -> element -> list element)
  (_parse_text : element -> Refs -> Specials -> element_cls -> text_element)
  (els : list element) (refs : Refs) (specials : Specials)
  : list (list text_element) :=
  map (fun tr => map (fun td => _parse_text td refs specials ClsCell)
                   (_css table_cell_css tr)) els.

(** A cell without span attributes, and a table without any. *)
Definition no_span (td : element) : Prop :=
  attrib td !! "namest" = None /\ attrib td !! "nameend" = None /\
  attrib td !! "morerows" = None.

Definition no_spans (_css : string -> element -> list element)
  (els : list element) : Prop :=
  Forall (fun tr => Forall no_span (_css table_cell_css tr)) els.

(** *** Decimal numerals *)

(** Strings whose characters all satisfy [p]. *)
Fixpoint chars_all (p : ascii -> bool) (s : string) : bool :=
  match s with
  | EmptyString => true
  | String a s' => p a && chars_all p s'
  end.

(** Decimal numerals: the string written with the digits [ds], most
    significant first, and the number it denotes. *)
Definition digit_char (d : nat) : ascii := ascii_of_nat (48 + d).

Definition numeral (ds : list nat) : string :=
  fold_right (fun d s => String (digit_char d) s) EmptyString ds.

Definition numeral_value (ds : list nat) : Z :=
  fold_left (fun acc d => (10 * acc + Z.of_nat d)%Z) ds 0%Z.

Definition decimal_digits (ds : list nat) : Prop :=
  ds <> [] /\ Forall (fun d => d < 10) ds.

(** *** Errors *)

(** No reader error comes out of [r]. *)
Definition no_reader_error {A : Type} (r : result A) : Prop :=
  r <> Raise ReaderError.

(** ** A concrete reader, to run the definitions on documents *)

(** A selector engine for the selectors of this module: alternatives
    separated by commas, each a chain of [prefix|name] steps separated by
    spaces (the descendant combinator), [prefix|*] standing for any name
    with that prefix.  The result is in document order and includes the
    node the query starts from when it matches. *)
Fixpoint bar_to_colon (s : string) : string :=
  match s with
  | EmptyString => EmptyString
  | String a s' =>
      String (if decide (a = "|"%char) then ":"%char else a) (bar_to_colon s')
  end.

Definition step_matches (step tg : string) : bool :=
  match String.rev step with
  | String "*" r => Py.startswith (String.rev r) tg
  | _ => bool_decide (step = tg)
  end.

(** [outer] are the steps before the last, innermost first; [ancestors]
    the tags of the ancestors, nearest first. *)
Fixpoint ancestors_match (outer : list string) (ancestors : list string)
  : bool :=
  match ancestors with
  | [] => match outer with [] => true | _ => false end
  | a :: ancestors' =>
      match outer with
      | [] => true
      | o :: outer' =>
          if step_matches o a then ancestors_match outer' ancestors'
          else ancestors_match outer ancestors'
      end
  end.

Definition chain_matches (tg : string) (ancestors : list string)
  (chain : list string) : bool :=
  match rev chain with
  | [] => false
  | last :: outer => step_matches last tg && ancestors_match outer ancestors
  end.

Definition selector_chains (sel : string) : list (list string) :=
  map (fun alt => map bar_to_colon (String.words alt)) (Py.split "," sel).

Fixpoint select_go (chains : list (list string)) (ancestors : list string)
  (el : element) : list element :=
  match el with
  | Element tg _ _ _ kids =>
      (if existsb (chain_matches tg ancestors) chains then [el] else [])
      ++ flat_map (select_go chains (tg :: ancestors)) kids
  end.

Definition css_select (sel : string) (el : element) : list element :=
  select_go (selector_chains sel) [] el.

(** A text conversion: the text of the node and of everything below it. *)
Fixpoint plain_text (el : element) : string :=
  match el with
  | Element _ _ tx _ kids =>
      Py.or_empty tx
      +:+ fold_right (fun k acc => plain_text k +:+ Py.or_empty (tail k) +:+ acc)
            "" kids
  end.

Definition text_of (el : element) (refs : Refs) (specials : Specials)
  (c : element_cls) : text_element :=
  TextElement c (plain_text el).

(** Nodes without attributes, and table cells and rows. *)
Definition node (tg : string) (tx tl : option string) (kids : list element)
  : element :=
  Element tg ∅ tx tl kids.

Definition entry (attrs : gmap string string) (s : string) : element :=
  Element "ce:entry" attrs (Some s) None [].

Definition table_row_of (cells : list element) : element :=
  node "cals:row" None None cells.


(** Selectors that a subclass could define for the three the class
    lacks.  They match no node of the documents below. *)
Definition sample_language_css : string := "dc|language".
Definition sample_pdf_url_css : string := "xocs|pdf-url".
Definition sample_html_url_css : string := "xocs|html-url".

(** A metadata block in which only the title is set. *)
Definition meta_title_only : element :=
  node "xocs:meta" None None
    [node "xocs:normalized-article-title" (Some "A title") None []].

(** A metadata block with a title and an article identifier. *)
Definition meta_title_pii : element :=
  node "xocs:meta" None None
    [node "xocs:normalized-article-title" (Some "A title") None [];
     node "xocs:pii-unformatted" (Some "S0000000000000000") None []].

(** A figure with a caption and no link. *)
Definition figure_no_link : element :=
  node "ce:figure" None None
    [node "ce:label" (Some "Fig. 1") None [];
     node "ce:caption" None None
       [node "ce:simple-para" (Some "A caption") None []]].

(** A figure with a caption and a link to the image [gr1]. *)
Definition figure_with_link : element :=
  node "ce:figure" None None
    [node "ce:caption" None None
       [node "ce:simple-para" (Some "A caption") None []];
     Element "ce:link"
       {[ "locator" := "gr1";
          "{http://www.w3.org/1999/xlink}href" := "pii:S0000000000000000/gr1" ]}
       None None []].

(** A document with the given content, and the declaration of an
    attachment file. *)
Definition document_of (body : list element) : element :=
  node "default:full-text-retrieval-response" None None body.

Definition attachment (name : string) : element :=
  node "xocs:attachment" None None [node "xocs:filename" (Some name) None []].

(** Base methods for running [parse]: a tree builder that builds no
    tree from empty content and otherwise a tree with the text as its
    only content under [tg]; cleaners that change nothing; no tables,
    no reference markers; a conversion walk that returns what the
    region map holds, oldest first. *)
Definition sample_make_tree (tg : string) (fstring : string) : option element :=
  match fstring with
  | EmptyString => None
  | String _ _ => Some (node tg (Some fstring) None [])
  end.

Definition sample_parse (root_tag : string) : string -> result document :=
  parse css_select text_of (sample_make_tree root_tag)
    (fun el => el) (fun el => el) (fun _ => None) (fun _ => [])
    (fun _ => []) (fun _ _ _ _ => Ok [])
    (fun _ specials _ => flat_map snd (rev specials)).

(** Tables.  [ragged_table]: two cells, then one.  [square_table]: two
    rows of two cells.  [short_row_table]: three cells, the last one
    spanning two rows, then a row of one cell.  [rowspan_table]: two
    cells, the second one spanning two rows, then a row of one cell. *)
Definition ragged_table : list element :=
  [table_row_of [entry ∅ "a"; entry ∅ "b"]; table_row_of [entry ∅ "c"]].

Definition square_table : list element :=
  [table_row_of [entry ∅ "a"; entry ∅ "b"];
   table_row_of [entry ∅ "c"; entry ∅ "d"]].

Definition short_row_table : list element :=
  [table_row_of [entry ∅ "a"; entry ∅ "b"; entry {[ "morerows" := "1" ]} "c"];
   table_row_of [entry ∅ "d"]].

(** [reversed_span_table]: one row whose first cell spans two rows and
    names its columns in reverse, followed by a plain cell. *)
Definition reversed_span_table : list element :=
  [table_row_of
     [entry {[ "namest" := "col2"; "nameend" := "col1"; "morerows" := "1" ]} "x";
      entry ∅ "y"]].

Definition rowspan_table : list element :=
  [table_row_of [entry ∅ "a"; entry {[ "morerows" := "1" ]} "b"];
   table_row_of [entry ∅ "c"]].

(** ** Further notions *)

(** *** Whitespace *)

(** A text or tail that [els_xml_whitespace] clears: a string, not
    empty, of whitespace only. *)
Definition blank (t : option string) : bool :=
  match t with
  | Some s => Py.isspace s
  | None => false
  end.

(** A tree in which no text and no tail is blank. *)
Fixpoint no_blank (el : element) : bool :=
  match el with
  | Element _ _ tx tl kids =>
      negb (blank tx) && negb (blank tl) && forallb no_blank kids
  end.

(** The tree without its texts and tails: tags, attributes and the
    arrangement of the nodes. *)
Fixpoint shape (el : element) : element :=
  match el with
  | Element tg at_ _ _ kids => Element tg at_ None None (map shape kids)
  end.

(** The nodes of a tree that are no splice nodes, each by its tag
    and attributes, in document order. *)
Fixpoint kept_nodes (el : element) : list (string * gmap string string) :=
  match el with
  | Element tg at_ _ _ kids =>
      (if is_splice tg then [] else [(tg, at_)]) ++ flat_map kept_nodes kids
  end.

(** The children of a splice node, visited from the left; the last one
    receives the tail [tl] of the node. *)
Fixpoint splice_last (tl : option string) (ks : list element)
  (st : left_context) : left_context :=
  match ks with
  | [] => st
  | [k] => splice_el tl k st
  | k :: ks' => splice_last tl ks' (splice_el None k st)
  end.


(** A property of nodes that does not look at the tail: the two merges
    leave to the left the same nodes, the nearest one with another tail
    at most. *)
Definition same_nodes (P : element -> Prop) : Prop :=
  forall el t, P el -> P (set_tail el t).

(** The kept nodes of the siblings seen so far, in document order. *)
Definition kept_of (prevs : list element)
  : list (string * gmap string string) :=
  flat_map kept_nodes (rev prevs).

(** *** Tables *)

(** Every cell of the grid is the conversion of a cell of the table. *)
Definition from_cells (_css : string -> element -> list element)
  (_parse_text : element -> Refs -> Specials -> element_cls -> text_element)
  (els : list element) (refs : Refs) (specials : Specials) (hdict : grid)
  : Prop :=
  forall r c v, cell_at hdict r c = Some v ->
    exists tr td, tr ∈ els /\ td ∈ _css table_cell_css tr /\
                  v = _parse_text td refs specials ClsCell.

(** Tables to run the reconstruction on.  [bad_span_table]: a cell
    whose start column is no number.  [blank_table]: two rows of cells
    without content.  [colspan_table]: a cell over the columns 1 to 2,
    then a plain cell; below, three plain cells. *)
Definition bad_span_table : list element :=
  [table_row_of [entry ∅ "a"; entry {[ "namest" := "colx" ]} "b"]].

Definition blank_table : list element :=
  [table_row_of [entry ∅ ""; entry ∅ ""]; table_row_of [entry ∅ ""]].

Definition colspan_table : list element :=
  [table_row_of
     [entry {[ "namest" := "col1"; "nameend" := "col2" ]} "a"; entry ∅ "b"];
   table_row_of [entry ∅ "c"; entry ∅ "d"; entry ∅ "e"]].

(** The number of columns a cell takes: its column span when the span
    attributes can be read, no column when the span is not positive. *)
Definition colspan_of (td : element) : nat :=
  match cell_span td with
  | Ok (colspan, _) => Z.to_nat colspan
  | Raise _ => 0
  end.

(** The rows of a table with every converted cell repeated over the
    columns it takes. *)
Definition expanded_layout (_css : string -> element -> list element)
  (_parse_text : element -> Refs -> Specials -> element_cls -> text_element)
  (els : list element) (refs : Refs) (specials : Specials)
  : list (list text_element) :=
  map (fun tr =>
         flat_map (fun td => replicate (colspan_of td)
                               (_parse_text td refs specials ClsCell))
           (_css table_cell_css tr)) els.

(** A table in which no cell spans rows: the span attributes of every
    cell can be read, and the row span is one. *)
Definition single_rows (_css : string -> element -> list element)
  (els : list element) : Prop :=
  Forall (fun tr =>
            Forall (fun td => exists colspan, cell_span td = Ok (colspan, 1%Z))
              (_css table_cell_css tr)) els.

(** The row [cs] written into the grid at [row]; a row without cells
    is not written. *)
Definition set_row (row : nat) (cs : list text_element) (hdict : grid) : grid :=
  match cs with
  | [] => hdict
  | _ :: _ => <[row := map_seq 0 cs]> hdict
  end.

(** [block_table]: a plain cell, then a cell over the columns 2 to 3
    and over two rows; below, one plain cell.  [reversed_cell]: a cell
    that names its columns in reverse. *)
Definition block_cell : element :=
  entry {[ "namest" := "col2"; "nameend" := "col3"; "morerows" := "1" ]} "b".

Definition block_table : list element :=
  [table_row_of [entry ∅ "a"; block_cell]; table_row_of [entry ∅ "c"]].

Definition reversed_cell : element :=
  entry {[ "namest" := "col2"; "nameend" := "col1"; "morerows" := "1" ]} "x".

(** *** Figures and metadata *)

(** The attribute that holds the target of a link. *)
Definition href_key : string := "{http://www.w3.org/1999/xlink}href".

(** The prefix of the address of an image. *)
Definition image_prefix : string :=
  "https://ars.els-cdn.com/content/image/1-s2.0-".

(** Every node of the list has a text. *)
Definition all_have_text (els : list element) : bool :=
  forallb (fun e => bool_decide (is_Some (text e))) els.

(** The text of a declared file names the image [id] in its large
    version. *)
Definition names_large (id : string) (filename : element) : bool :=
  match text filename with
  | Some t => Py.contains id t && Py.contains "_lrg" t
  | None => false
  end.

(** *** Documents *)

(** A tree builder that returns the same tree whatever the content. *)
Definition constant_tree (tree : element) (fstring : string) : option element :=
  Some tree.

(** [parse] with the sample base methods on a given tree. *)
Definition parse_tree (tree : element) : string -> result document :=
  parse css_select text_of (constant_tree tree)
    (fun el => el) (fun el => el) (fun _ => None) (fun _ => [])
    (fun _ => []) (fun _ _ _ _ => Ok [])
    (fun _ specials _ => flat_map snd (rev specials)).

(** *** Rows of the grid *)

(** Every row of the grid holds a cell: a row is entered in the grid
    only together with its first cell. *)
Definition rows_filled (hdict : grid) : Prop :=
  forall r d, hdict !! r = Some d -> d <> ∅.

(** [gap_table]: a row without any cell between two rows of one cell. *)
Definition gap_table : list element :=
  [table_row_of [entry ∅ "a"]; table_row_of []; table_row_of [entry ∅ "b"]].

(** *** Column names *)

(** The reading of a column name that takes every [col] out of the
    value and converts what is left, and the column span that comes
    with it. *)
Definition strip_col (s : string) : string :=
  String.concat "" (Py.split "col" s).

Definition stripped_colname (td : element) (name : string) : result Z :=
  Py.int (strip_col (get_attr td name "1")).

Definition stripped_colspan (td : element) : result Z :=
  namest ← stripped_colname td "namest";
  nameend ← stripped_colname td "nameend";
  Ok ((nameend - namest) + 1)%Z.

(** The attribute [name] of the cell is absent, the numeral [N] or the
    value [colN], and [v] is 1 or the number [N]. *)
Definition colname_denotes (td : element) (name : string) (v : Z) : Prop :=
  (attrib td !! name = None /\ v = 1%Z) \/
  exists ds, decimal_digits ds /\ v = numeral_value ds /\
    (attrib td !! name = Some (numeral ds) \/
     attrib td !! name = Some ("col" +:+ numeral ds)).

(** [mixed_cell]: a cell from column [col1] to a column named [1col2]. *)
Definition mixed_cell : element :=
  entry {[ "namest" := "col1"; "nameend" := "1col2" ]} "x".

(** * Properties *)

(** ** Loops that may raise *)

Lemma for_each_app {A S : Type} (body : A -> S -> result S) xs ys s :
  for_each body (xs ++ ys) s =
  match for_each body xs s with
  | Ok s' => for_each body ys s'
  | Raise e => Raise e
  end.
Proof.
  revert s. induction xs as [|x xs IH]; intros s; simpl; [done|].
  destruct (body x s); [apply IH | done].
Qed.

(** A property kept by every step holds when the loop returns. *)
Lemma for_each_invariant {A S : Type} (P : S -> Prop)
  (body : A -> S -> result S) xs s r :
  (forall x s s', x ∈ xs -> P s -> body x s = Ok s' -> P s') ->
  P s -> for_each body xs s = Ok r -> P r.
Proof.
  revert s. induction xs as [|x xs IH]; intros s Hstep Hs Hr; simpl in Hr.
  - by simplify_eq.
  - destruct (body x s) as [s'|] eqn:Hb; [|done].
    apply (IH s'); [|by eapply Hstep; [left|..]|done].
    intros y t t' Hy. apply Hstep. by right.
Qed.

(** The loop returns when every step does. *)
Lemma for_each_returns {A S : Type} (body : A -> S -> result S) xs s :
  (forall x s, x ∈ xs -> exists s', body x s = Ok s') ->
  exists r, for_each body xs s = Ok r.
Proof.
  revert s. induction xs as [|x xs IH]; intros s Hstep; simpl; [by eexists|].
  destruct (Hstep x s) as [s' ->]; [by left|].
  apply IH. intros y t Hy. apply Hstep. by right.
Qed.

(** ** The column search *)

Lemma next_free_ext fuel (d d' : gmap nat text_element) c :
  (forall x, c <= x -> d !! x = d' !! x) ->
  next_free fuel d c = next_free fuel d' c.
Proof.
  revert c. induction fuel as [|fuel IH]; intros c H; simpl; [done|].
  rewrite <- (H c) by lia. destruct (d !! c); [|done].
  apply IH. intros x Hx. apply H. lia.
Qed.

Lemma next_free_spec fuel (d : gmap nat text_element) c :
  size d < fuel ->
  let c' := next_free fuel d c in
  c <= c' /\ d !! c' = None /\ forall x, c <= x < c' -> is_Some (d !! x).
Proof.
  revert d c. induction fuel as [|fuel IH]; intros d c Hsz; [exfalso; lia|].
  simpl. destruct (d !! c) as [v|] eqn:Hc.
  - rewrite (next_free_ext fuel d (delete c d) (S c)).
    2:{ intros x Hx. rewrite lookup_delete_ne by lia. done. }
    destruct (IH (delete c d) (S c)) as (Hle & Hfree & Hocc).
    { assert (size d <> 0).
      { intros H0%map_size_empty_iff. by rewrite H0, lookup_empty in Hc. }
      rewrite map_size_delete, Hc. simpl. lia. }
    set (c' := next_free fuel (delete c d) (S c)) in *.
    split; [lia|]. split.
    + rewrite lookup_delete_ne in Hfree by lia. done.
    + intros x Hx. destruct (decide (x = c)) as [->|Hne]; [by eexists|].
      specialize (Hocc x). rewrite lookup_delete_ne in Hocc by lia.
      apply Hocc. lia.
  - split; [lia|]. split; [done|]. intros x Hx. lia.
Qed.

(** The search stops on the first free column at or after the cursor:
    the bound on its steps is never reached. *)
Lemma skip_occupied_free (d : gmap nat text_element) c :
  let c' := skip_occupied d c in
  c <= c' /\ d !! c' = None /\ forall x, c <= x < c' -> is_Some (d !! x).
Proof. apply next_free_spec. lia. Qed.

Lemma skip_occupied_here (d : gmap nat text_element) c :
  d !! c = None -> skip_occupied d c = c.
Proof. intros H. unfold skip_occupied. simpl. by rewrite H. Qed.

(** ** Sorted keys *)

Lemma sorted_keys_elem {A : Type} (d : gmap nat A) k :
  k ∈ sorted_keys d <-> is_Some (d !! k).
Proof.
  unfold sorted_keys. rewrite merge_sort_Permutation.
  rewrite list_elem_of_fmap. split.
  - intros [[k' v] [-> H]]. apply elem_of_map_to_list in H. by eexists.
  - intros [v H]. exists (k, v). split; [done|]. by apply elem_of_map_to_list.
Qed.

Lemma sorted_keys_NoDup {A : Type} (d : gmap nat A) : NoDup (sorted_keys d).
Proof.
  unfold sorted_keys. rewrite merge_sort_Permutation.
  apply NoDup_fst_map_to_list.
Qed.

Lemma sorted_keys_Sorted {A : Type} (d : gmap nat A) :
  Sorted Nat.le (sorted_keys d).
Proof. apply (Sorted_merge_sort Nat.le). Qed.

(** [sorted(d)] is the one sorted list without repetition that holds
    exactly the keys of [d]. *)
Lemma sorted_keys_unique {A : Type} (d : gmap nat A) (l : list nat) :
  Sorted Nat.le l -> NoDup l ->
  (forall k, k ∈ l <-> is_Some (d !! k)) ->
  sorted_keys d = l.
Proof.
  intros Hs Hn Hl. apply (Sorted_unique Nat.le).
  - apply sorted_keys_Sorted.
  - done.
  - apply NoDup_Permutation; [apply sorted_keys_NoDup|done|].
    intros k. by rewrite sorted_keys_elem, Hl.
Qed.

Lemma Sorted_le_seq k n : Sorted Nat.le (seq k n).
Proof.
  revert k. induction n as [|n IH]; intros k; simpl; [constructor|].
  constructor; [apply IH|]. destruct n; simpl; constructor. lia.
Qed.

Lemma sorted_keys_map_seq {A : Type} (l : list A) :
  sorted_keys (map_seq 0 l : gmap nat A) = seq 0 (length l).
Proof.
  apply sorted_keys_unique.
  - apply Sorted_le_seq.
  - apply NoDup_seq.
  - intros k. rewrite elem_of_seq, lookup_map_seq_0, lookup_lt_is_Some. lia.
Qed.

(** ** Padding and the dropped rows *)

Lemma max_width_app {A : Type} (xs ys : list (list A)) :
  max_width (xs ++ ys) = Nat.max (max_width xs) (max_width ys).
Proof.
  unfold max_width. induction xs as [|x xs IH]; simpl; [done|].
  rewrite IH. lia.
Qed.

Lemma max_width_ge {A : Type} (rows : list (list A)) r :
  r ∈ rows -> length r <= max_width rows.
Proof.
  unfold max_width. induction 1 as [r rows|r r' rows _ IH]; simpl; lia.
Qed.

Lemma max_by_len_length {A : Type} (best : list A) rows :
  length (max_by_len best rows) = Nat.max (length best) (max_width rows).
Proof.
  revert best. induction rows as [|r rows IH]; intros best; simpl.
  - unfold max_width. simpl. lia.
  - unfold max_width in *. simpl.
    destruct (Nat.ltb_spec (length best) (length r)); rewrite IH; lia.
Qed.

(** [len(max(rows, key=len))] is the maximum row width. *)
Lemma max_row_length {A : Type} (rows : list (list A)) :
  length (max_row rows) = max_width rows.
Proof.
  destruct rows as [|r rows]; simpl; [done|].
  rewrite max_by_len_length. done.
Qed.

Lemma pad_to_length w r : length r <= w -> length (pad_to w r) = w.
Proof.
  intros H. unfold pad_to. rewrite length_app, length_replicate. lia.
Qed.

Lemma max_width_cons {A : Type} (r : list A) rows :
  max_width (r :: rows) = Nat.max (length r) (max_width rows).
Proof. done. Qed.

(** Extending the rows one after the other does not move the maximum
    width, so the loop pads every row to the width found at the start. *)
Lemma pad_loop_spec todo done w :
  max_width (done ++ todo) = w ->
  pad_loop done todo = done ++ map (pad_to w) todo.
Proof.
  revert done. induction todo as [|r todo IH]; intros done Hw; simpl.
  - by rewrite app_nil_r.
  - rewrite max_row_length, Hw.
    fold (pad_to w r).
    rewrite (IH (done ++ [pad_to w r])).
    + by rewrite <- app_assoc.
    + assert (length r <= w) as Hr.
      { rewrite <- Hw. apply max_width_ge. set_solver. }
      rewrite max_width_app, max_width_cons in Hw.
      rewrite !max_width_app, max_width_cons, pad_to_length by done.
      change (max_width (@nil (list text_element))) with 0. lia.
Qed.

Lemma pad_loop_all rows :
  pad_loop [] rows = map (pad_to (max_width rows)) rows.
Proof. by apply (pad_loop_spec rows []). Qed.

Lemma finish_rows_eq hdict :
  finish_rows hdict =
  filter (fun r => any r = true)
    (map (pad_to (max_width (grid_rows hdict))) (grid_rows hdict)).
Proof. unfold finish_rows. by rewrite pad_loop_all. Qed.

(** A row is true for [any] as soon as it holds a cell. *)
Lemma any_true_iff r : any r = true <-> r <> [].
Proof. unfold any. by destruct r. Qed.

Lemma pad_to_nonempty w r : r <> [] -> pad_to w r <> [].
Proof. unfold pad_to. by destruct r. Qed.

(** When every row read off the grid holds a cell, the test [any(r)]
    lets every row pass. *)
Lemma finish_rows_all hdict :
  Forall (fun r => r <> []) (grid_rows hdict) ->
  finish_rows hdict =
  map (pad_to (max_width (grid_rows hdict))) (grid_rows hdict).
Proof.
  intros Hall. rewrite finish_rows_eq.
  generalize (max_width (grid_rows hdict)) as w. intros w.
  induction Hall as [|r rs Hr _ IH]; [done|].
  cbn [map]. rewrite filter_cons_True, IH; [done|].
  by apply any_true_iff, pad_to_nonempty.
Qed.

Section TableShape.

Variable _css : string -> element -> list element.
Variable _parse_text :
  element -> Refs -> Specials -> element_cls -> text_element.

Lemma parse_table_rows_Ok els refs specials rows :
  _parse_table_rows _css _parse_text els refs specials = Ok rows ->
  exists hdict,
    table_grid _css _parse_text els refs specials = Ok hdict /\
    rows = finish_rows hdict.
Proof.
  unfold _parse_table_rows. intros H.
  destruct (table_grid _ _ els refs specials) as [hdict|]; [|done].
  exists hdict. simpl in H. by simplify_eq.
Qed.

End TableShape.

(** ** Filling the grid *)

Lemma cell_at_default (hdict : grid) r c :
  default ∅ (hdict !! r) !! c = cell_at hdict r c.
Proof. unfold cell_at. destruct (hdict !! r); simpl; [done|apply lookup_empty]. Qed.

(** One placement writes the cell at the first free column of its row,
    at or after the cursor, and changes no other position. *)
Lemma place_spec cell row hdict colnum j hdict' c' :
  place cell row (hdict, colnum) j = (hdict', c') ->
  c' = skip_occupied (default ∅ (hdict !! (row + j))) colnum /\
  forall r c,
    cell_at hdict' r c =
    if decide (r = row + j /\ c = c') then Some cell else cell_at hdict r c.
Proof.
  unfold place. intros H.
  assert (default ∅ (match hdict !! (row + j) with
                     | Some _ => hdict
                     | None => <[row + j := ∅]> hdict
                     end !! (row + j)) = default ∅ (hdict !! (row + j))) as Hd.
  { destruct (hdict !! (row + j)) eqn:E; [by rewrite E|].
    by rewrite lookup_insert_eq. }
  rewrite Hd in H. injection H as <- <-. split; [done|].
  intros r c. unfold cell_at at 1.
  destruct (decide (r = row + j)) as [->|Hr].
  - rewrite lookup_insert_eq. simpl.
    destruct (decide (c = skip_occupied (default ∅ (hdict !! (row + j))) colnum))
      as [->|Hc].
    + rewrite lookup_insert_eq. by rewrite decide_True.
    + rewrite lookup_insert_ne by done. rewrite decide_False by tauto.
      apply cell_at_default.
  - rewrite lookup_insert_ne by done. rewrite decide_False by tauto.
    unfold cell_at. destruct (hdict !! (row + j)); [done|].
    by rewrite lookup_insert_ne.
Qed.

Lemma place_free cell row hdict colnum j hdict' c' :
  place cell row (hdict, colnum) j = (hdict', c') ->
  colnum <= c' /\ cell_at hdict (row + j) c' = None /\
  forall c, colnum <= c < c' -> is_Some (cell_at hdict (row + j) c).
Proof.
  intros [-> _]%place_spec.
  destruct (skip_occupied_free (default ∅ (hdict !! (row + j))) colnum)
    as (H1 & H2 & H3).
  rewrite cell_at_default in H2. split; [done|]. split; [done|].
  intros c Hc. rewrite <- cell_at_default. by apply H3.
Qed.

Lemma staircase_empty row : staircase row ∅.
Proof. intros r c _ [v H]. unfold cell_at in H. by rewrite lookup_empty in H. Qed.

Lemma staircase_weaken row row' hdict :
  row <= row' -> staircase row hdict -> staircase row' hdict.
Proof. intros Hle H r c Hr. apply H. lia. Qed.

Lemma staircase_free_below row hdict c n :
  staircase row hdict -> cell_at hdict row c = None ->
  cell_at hdict (row + n) c = None.
Proof.
  intros Hs H0. induction n as [|n IH].
  - by rewrite Nat.add_0_r.
  - destruct (cell_at hdict (row + S n) c) eqn:E; [|done].
    assert (is_Some (cell_at hdict (row + n) c)) as [v Hv].
    { apply Hs; [lia|]. replace (S (row + n)) with (row + S n) by lia.
      by eexists. }
    congruence.
Qed.

(** The row-span loop of one column unit.  On a staircase, the search
    in the rows below stops at once: the cell lands in one column, the
    first free one of its own row, in all the rows it spans. *)
Lemma rowspan_loop cell row n hdict colnum hdict' c' :
  staircase row hdict ->
  fold_left (place cell row) (seq 0 n) (hdict, colnum) = (hdict', c') ->
  (n = 0 /\ hdict' = hdict /\ c' = colnum) \/
  (0 < n /\
   c' = skip_occupied (default ∅ (hdict !! row)) colnum /\
   cell_at hdict row c' = None /\
   forall r c,
     cell_at hdict' r c =
     if decide (c = c' /\ row <= r < row + n) then Some cell
     else cell_at hdict r c).
Proof.
  intros Hs. revert hdict' c'. induction n as [|n IH]; intros hdict' c' H.
  - left. simpl in H. by simplify_eq.
  - right. rewrite seq_S, fold_left_app in H. simpl in H.
    destruct (fold_left (place cell row) (seq 0 n) (hdict, colnum))
      as [hd1 c1] eqn:E1.
    destruct (IH hd1 c1 eq_refl) as [(-> & -> & ->)|(Hn & Hc1 & Hfree & Hat)].
    + pose proof (place_spec _ _ _ _ _ _ _ H) as [Hc' Hat'].
      pose proof (place_free _ _ _ _ _ _ _ H) as (_ & Hf & _).
      rewrite Nat.add_0_r in *.
      split; [lia|]. split; [done|]. split; [done|].
      intros r c. rewrite Hat'.
      destruct (decide (r = row /\ c = c')), (decide (c = c' /\ row <= r < row + 1));
        try done; lia.
    + pose proof (place_spec _ _ _ _ _ _ _ H) as [Hc' Hat'].
      assert (cell_at hd1 (row + n) c1 = None) as Hhere.
      { rewrite Hat. rewrite decide_False by lia.
        by apply staircase_free_below. }
      assert (c' = c1) as ->.
      { rewrite Hc'. apply skip_occupied_here. by rewrite cell_at_default. }
      split; [lia|]. split; [done|]. split; [done|].
      intros r c. rewrite Hat', Hat.
      destruct (decide (r = row + n /\ c = c1)),
        (decide (c = c1 /\ row <= r < row + n)),
        (decide (c = c1 /\ row <= r < row + S n)); try done; lia.
Qed.

Lemma grid_le_refl hdict : grid_le hdict hdict.
Proof. by intros r c v. Qed.

Lemma grid_le_trans h1 h2 h3 : grid_le h1 h2 -> grid_le h2 h3 -> grid_le h1 h3.
Proof. intros H12 H23 r c v H. by apply H23, H12. Qed.

Lemma rowspan_loop_keeps cell row n hdict colnum hdict' c' :
  staircase row hdict ->
  fold_left (place cell row) (seq 0 n) (hdict, colnum) = (hdict', c') ->
  staircase row hdict' /\ grid_le hdict hdict'.
Proof.
  intros Hs H.
  destruct (rowspan_loop _ _ _ _ _ _ _ Hs H)
    as [(-> & -> & ->)|(Hn & Hc' & Hfree & Hat)].
  { split; [done|apply grid_le_refl]. }
  split.
  - intros r c Hr. rewrite !Hat.
    destruct (decide (c = c' /\ row <= S r < row + n)) as [[-> Hin]|Hout].
    + intros _. rewrite decide_True by lia. by eexists.
    + intros Hocc. destruct (decide (c = c' /\ row <= r < row + n)); [by eexists|].
      by apply Hs.
  - intros r c v Hv. rewrite Hat.
    destruct (decide (c = c' /\ row <= r < row + n)) as [[-> Hin]|Hout]; [|done].
    replace r with (row + (r - row)) in Hv by lia.
    rewrite (staircase_free_below row hdict c' (r - row) Hs Hfree) in Hv. done.
Qed.

Lemma span_step_keeps cell row rowspan st i st' :
  staircase row st.1 ->
  span_step cell row rowspan st i = st' ->
  staircase row st'.1 /\ grid_le st.1 st'.1.
Proof.
  destruct st as [hdict colnum]. unfold span_step, range. intros Hs H.
  destruct (fold_left (place cell row) (seq 0 (Z.to_nat rowspan)) (hdict, colnum))
    as [hd1 c1] eqn:E.
  subst st'. simpl. by eapply rowspan_loop_keeps.
Qed.

Lemma fold_left_keeps {A S : Type} (P : S -> Prop) (R : S -> S -> Prop)
  (f : S -> A -> S) xs s :
  (forall s, R s s) -> (forall a b c, R a b -> R b c -> R a c) ->
  (forall s x, P s -> P (f s x) /\ R s (f s x)) ->
  P s -> P (fold_left f xs s) /\ R s (fold_left f xs s).
Proof.
  intros Hrefl Htrans Hstep. revert s.
  induction xs as [|x xs IH]; intros s Hs; simpl; [by split|].
  destruct (Hstep s x Hs) as [HP HR].
  destruct (IH _ HP) as [HP' HR']. split; [done|]. by eapply Htrans.
Qed.

Lemma span_loops_keeps cell row colspan rowspan st :
  staircase row st.1 ->
  staircase row (span_loops cell row colspan rowspan st).1 /\
  grid_le st.1 (span_loops cell row colspan rowspan st).1.
Proof.
  unfold span_loops.
  apply (fold_left_keeps (fun st => staircase row st.1)
           (fun st st' => grid_le st.1 st'.1)).
  - intros s. apply grid_le_refl.
  - intros a b c. apply grid_le_trans.
  - intros s i Hs. by eapply span_step_keeps.
Qed.

(** A cell that spans at least one column and exactly two rows is in the
    grid at one column of its own row and of the row below. *)
Lemma span_loops_two_rows cell row colspan hdict colnum :
  staircase row hdict -> (0 < colspan)%Z ->
  exists col,
    cell_at (span_loops cell row colspan 2 (hdict, colnum)).1 row col = Some cell /\
    cell_at (span_loops cell row colspan 2 (hdict, colnum)).1 (S row) col = Some cell.
Proof.
  intros Hs Hc. unfold span_loops, range.
  destruct (Z.to_nat colspan) as [|n] eqn:En; [lia|].
  change (seq 0 (S n)) with (0 :: seq 1 n). simpl fold_left.
  set (st1 := span_step cell row 2 (hdict, colnum) 0).
  assert (staircase row st1.1 /\ exists col,
             cell_at st1.1 row col = Some cell /\
             cell_at st1.1 (S row) col = Some cell) as [Hs1 (col & H0 & H1)].
  { subst st1. unfold span_step, range.
    destruct (fold_left (place cell row) (seq 0 (Z.to_nat 2)) (hdict, colnum))
      as [hd1 c1] eqn:E.
    pose proof (rowspan_loop_keeps _ _ _ _ _ _ _ Hs E) as [Hs1 _].
    destruct (rowspan_loop _ _ _ _ _ _ _ Hs E)
      as [(Hn & _)|(_ & _ & _ & Hat)]; [done|].
    simpl. split; [done|]. exists c1. rewrite !Hat.
    change (Z.to_nat 2) with 2.
    rewrite !decide_True by lia. done. }
  exists col.
  destruct (fold_left_keeps (fun st => staircase row st.1)
              (fun st st' => grid_le st.1 st'.1)
              (span_step cell row 2) (seq 1 n) st1) as [_ Hle].
  - intros s. apply grid_le_refl.
  - intros a b c. apply grid_le_trans.
  - intros s i Hsi. by eapply span_step_keeps.
  - done.
  - split; by apply Hle.
Qed.

Section GridInvariants.

Variable _css : string -> element -> list element.
Variable _parse_text :
  element -> Refs -> Specials -> element_cls -> text_element.

Local Abbreviation cell_step := (table_cell _parse_text).
Local Abbreviation row_step := (table_row _css _parse_text).
Local Abbreviation grid_of := (table_grid _css _parse_text).

Lemma table_cell_Ok refs specials row td st st' :
  cell_step refs specials row td st = Ok st' ->
  exists colspan rowspan,
    cell_span td = Ok (colspan, rowspan) /\
    st' = span_loops (_parse_text td refs specials ClsCell) row
            colspan rowspan st.
Proof.
  unfold table_cell. destruct (cell_span td) as [[colspan rowspan]|]; [|done].
  simpl. intros H. exists colspan, rowspan. split; [done|]. by simplify_eq.
Qed.

Lemma table_cell_keeps refs specials row td st st' :
  staircase row st.1 ->
  cell_step refs specials row td st = Ok st' ->
  staircase row st'.1 /\ grid_le st.1 st'.1.
Proof.
  intros Hs (colspan & rowspan & _ & ->)%table_cell_Ok.
  by apply span_loops_keeps.
Qed.

Lemma cells_keep refs specials row tds st st' :
  staircase row st.1 ->
  for_each (cell_step refs specials row) tds st = Ok st' ->
  staircase row st'.1 /\ grid_le st.1 st'.1.
Proof.
  intros Hs H.
  apply (for_each_invariant
           (fun s => staircase row s.1 /\ grid_le st.1 s.1) _ _ _ _) in H;
    [done| |].
  - intros td s s' _ [Hs1 Hle] Hb.
    destruct (table_cell_keeps _ _ _ _ _ _ Hs1 Hb) as [Hs2 Hle2].
    split; [done|]. by eapply grid_le_trans.
  - split; [done|apply grid_le_refl].
Qed.

Lemma table_row_Ok refs specials row tr hdict hdict' :
  row_step refs specials (row, tr) hdict = Ok hdict' ->
  exists colnum,
    for_each (cell_step refs specials row) (_css table_cell_css tr)
      (hdict, 0) = Ok (hdict', colnum).
Proof.
  unfold table_row.
  destruct (for_each _ _ _) as [[hd c]|]; [|done].
  simpl. intros H. exists c. by simplify_eq.
Qed.

Lemma table_row_keeps refs specials row tr hdict hdict' :
  staircase row hdict ->
  row_step refs specials (row, tr) hdict = Ok hdict' ->
  staircase row hdict' /\ grid_le hdict hdict'.
Proof.
  intros Hs [colnum H]%table_row_Ok.
  apply (cells_keep refs specials row _ (hdict, 0) (hdict', colnum) Hs H).
Qed.

Lemma rows_keep refs specials trs k hdict hdict' :
  staircase k hdict ->
  for_each (row_step refs specials) (zip (seq k (length trs)) trs) hdict
  = Ok hdict' ->
  staircase (k + length trs) hdict' /\ grid_le hdict hdict'.
Proof.
  revert k hdict. induction trs as [|tr trs IH]; intros k hdict Hs H.
  - simpl in *. simplify_eq. replace (k + 0) with k by lia.
    split; [assumption|apply grid_le_refl].
  - cbn [for_each zip_with seq length] in H.
    destruct (row_step refs specials (k, tr) hdict) as [hd1|] eqn:E; [|done].
    destruct (table_row_keeps _ _ _ _ _ _ Hs E) as [Hs1 Hle1].
    destruct (IH (S k) hd1) as [Hs2 Hle2]; [apply (staircase_weaken k); [lia|assumption]|assumption|].
    simpl. replace (k + S (length trs)) with (S k + length trs) by lia.
    split; [done|]. by eapply grid_le_trans.
Qed.

Lemma zip_seq_app {A : Type} k (xs ys : list A) :
  zip (seq k (length (xs ++ ys))) (xs ++ ys) =
  zip (seq k (length xs)) xs ++ zip (seq (k + length xs) (length ys)) ys.
Proof.
  revert k. induction xs as [|x xs IH]; intros k; simpl.
  - by rewrite Nat.add_0_r.
  - rewrite IH. replace (k + S (length xs)) with (S k + length xs) by lia.
    done.
Qed.

(** The grid after the cell [td], the [k]-th cell of row [row], was
    read, and what became of it. *)
Lemma table_grid_at_cell els refs specials hdict row tr k td :
  grid_of els refs specials = Ok hdict ->
  els !! row = Some tr ->
  _css table_cell_css tr !! k = Some td ->
  exists st st',
    staircase row st.1 /\
    cell_step refs specials row td st = Ok st' /\
    grid_le st'.1 hdict.
Proof.
  unfold table_grid, enumerate. intros H Htr Htd.
  rewrite <- (take_drop_middle els row tr Htr) in H.
  rewrite zip_seq_app, for_each_app in H.
  destruct (for_each _ (zip (seq 0 (length (take row els))) (take row els)) ∅)
    as [hd1|] eqn:E1; [|done].
  destruct (rows_keep _ _ _ _ _ _ (staircase_empty 0) E1) as [Hs1 _].
  rewrite length_take_le in Hs1, H
      by (apply Nat.lt_le_incl; by eapply lookup_lt_Some).
  cbn [for_each zip_with seq length Nat.add] in Hs1, H.
  destruct (row_step refs specials (row, tr) hd1) as [hd2|] eqn:E2; [|done].
  destruct (rows_keep _ _ _ (S row) _ _
              (staircase_weaken _ _ _ (Nat.le_succ_diag_r row)
                 (proj1 (table_row_keeps _ _ _ _ _ _ Hs1 E2))) H)
    as [_ Hle2].
  apply table_row_Ok in E2 as [colnum E2].
  rewrite <- (take_drop_middle _ k td Htd), for_each_app in E2.
  destruct (for_each _ (take k (_css table_cell_css tr)) (hd1, 0))
    as [stA|] eqn:EA; [|done].
  cbn [for_each] in E2.
  destruct (cell_step refs specials row td stA) as [stB|] eqn:EB; [|done].
  exists stA, stB.
  destruct (cells_keep refs specials row _ (hd1, 0) stA Hs1 EA) as [HsA _].
  destruct (table_cell_keeps _ _ _ _ _ _ HsA EB) as [HsB _].
  destruct (cells_keep refs specials row _ stB (hd2, colnum) HsB E2) as [_ HleB].
  split; [done|]. split; [done|]. by eapply grid_le_trans.
Qed.

End GridInvariants.

Section Returns.

Variable _css : string -> element -> list element.
Variable _parse_text :
  element -> Refs -> Specials -> element_cls -> text_element.

(** The reconstruction returns whenever the span attributes of every
    cell can be read. *)
Lemma parse_table_rows_returns els refs specials :
  (forall tr td, tr ∈ els -> td ∈ _css table_cell_css tr ->
     exists span, cell_span td = Ok span) ->
  exists rows, _parse_table_rows _css _parse_text els refs specials = Ok rows.
Proof.
  intros Hspan. unfold _parse_table_rows, table_grid.
  destruct (for_each_returns (table_row _css _parse_text refs specials)
              (enumerate els) ∅) as [hdict ->]; [|by eexists].
  intros [row tr] hdict Hin. unfold table_row.
  assert (tr ∈ els) as Htr.
  { unfold enumerate in Hin. apply list_elem_of_lookup in Hin as [i Hi].
    apply lookup_zip_with_Some in Hi as (a & b & [= -> ->] & _ & Hb).
    by eapply list_elem_of_lookup_2. }
  destruct (for_each_returns (table_cell _parse_text refs specials row)
              (_css table_cell_css tr) (hdict, 0)) as [[hd c] ->];
    [|by eexists].
  intros td st Htd. unfold table_cell.
  destruct (Hspan tr td Htr Htd) as [[colspan rowspan] ->]. by eexists.
Qed.

End Returns.

(** ** No row is dropped *)

Lemma place_filled cell row st j :
  rows_filled st.1 -> rows_filled (place cell row st j).1.
Proof.
  destruct st as [hdict colnum]. unfold place. cbn [fst].
  intros Hf r d.
  destruct (decide (r = row + j)) as [->|Hne].
  - rewrite lookup_insert_eq. intros [= <-]. apply insert_non_empty.
  - rewrite lookup_insert_ne by done.
    destruct (hdict !! (row + j)); [apply Hf|].
    rewrite lookup_insert_ne by done. apply Hf.
Qed.

Lemma fold_left_invariant {A S : Type} (P : S -> Prop) (f : S -> A -> S) xs s :
  (forall s x, P s -> P (f s x)) -> P s -> P (fold_left f xs s).
Proof.
  intros Hf. revert s. induction xs as [|x xs IH]; intros s Hs; [done|].
  cbn [fold_left]. by apply IH, Hf.
Qed.

Lemma span_loops_filled cell row colspan rowspan st :
  rows_filled st.1 -> rows_filled (span_loops cell row colspan rowspan st).1.
Proof.
  unfold span_loops.
  apply (fold_left_invariant (fun st => rows_filled st.1)).
  intros s i Hs. unfold span_step.
  destruct (fold_left (place cell row) (range rowspan) s) as [hd c] eqn:E.
  cbn [fst]. change hd with (hd, c).1. rewrite <- E.
  apply (fold_left_invariant (fun st => rows_filled st.1)); [|done].
  intros s' j. apply place_filled.
Qed.

Lemma row_cells_nonempty (d : gmap nat text_element) :
  d <> ∅ -> row_cells d <> [].
Proof.
  intros Hd Hnil. apply map_choose in Hd as (col & v & Hv).
  assert (col ∈ sorted_keys d) as Hin by (apply sorted_keys_elem; by eexists).
  unfold row_cells in Hnil. apply fmap_nil_inv in Hnil.
  rewrite Hnil in Hin. by apply elem_of_nil in Hin.
Qed.

Lemma grid_rows_filled (hdict : grid) :
  rows_filled hdict -> Forall (fun r => r <> []) (grid_rows hdict).
Proof.
  intros Hf. unfold grid_rows. apply Forall_fmap, Forall_forall.
  intros row [d Hd]%sorted_keys_elem. cbn.
  rewrite (lookup_total_correct _ _ _ Hd). by eapply row_cells_nonempty, Hf.
Qed.

Section AllRows.

Variable _css : string -> element -> list element.
Variable _parse_text :
  element -> Refs -> Specials -> element_cls -> text_element.

Lemma table_grid_filled els refs specials hdict :
  table_grid _css _parse_text els refs specials = Ok hdict ->
  rows_filled hdict.
Proof.
  unfold table_grid. apply (for_each_invariant rows_filled); [|done].
  intros [row tr] h h' _ Hh [colnum Hr]%table_row_Ok.
  change h' with (h', colnum).1. revert Hr.
  apply (for_each_invariant (fun st => rows_filled st.1)); [|done].
  intros td st st' _ Hst (colspan & rowspan & _ & ->)%table_cell_Ok.
  by apply span_loops_filled.
Qed.

(** The rows that come back are all the rows of the grid, padded. *)
Lemma parse_table_rows_all els refs specials rows :
  _parse_table_rows _css _parse_text els refs specials = Ok rows ->
  exists hdict,
    table_grid _css _parse_text els refs specials = Ok hdict /\
    rows = map (pad_to (max_width (grid_rows hdict))) (grid_rows hdict).
Proof.
  intros (hdict & Hg & ->)%parse_table_rows_Ok. exists hdict.
  split; [done|]. apply finish_rows_all, grid_rows_filled.
  by eapply table_grid_filled.
Qed.

End AllRows.

(** C3.  The rows that [_parse_table_rows] returns are the rows read off
    the grid, each padded on the right with empty cells to the maximum
    row width: all returned rows have one length.  The test [any(r)]
    that is to leave out the rows of empty cells leaves out none, since
    a cell is true whatever its text: every row of the grid is
    returned, and the rows of [blank_table], which hold empty cells
    only, are in the output. *)
Theorem parse_table_rows_keeps_empty_rows :
  (forall _css _parse_text els refs specials rows,
     _parse_table_rows _css _parse_text els refs specials = Ok rows ->
     exists hdict,
       table_grid _css _parse_text els refs specials = Ok hdict /\
       rows = map (pad_to (max_width (grid_rows hdict))) (grid_rows hdict) /\
       (forall r1 r2, r1 ∈ rows -> r2 ∈ rows -> length r1 = length r2)) /\
  _parse_table_rows css_select text_of blank_table [] [] =
  Ok [[Cell ""; Cell ""]; [Cell ""; Cell ""]] /\
  Forall (Forall (fun c => content c = ""))
    [[Cell ""; Cell ""]; [Cell ""; Cell ""]].
Proof.
  split; [|split; [vm_compute; reflexivity|by repeat constructor]].
  intros _css _parse_text els refs specials rows H.
  destruct (parse_table_rows_all _ _ _ _ _ _ H) as (hdict & Hg & Hrows).
  exists hdict. split; [done|]. split; [done|].
  intros r1 r2 H1 H2. rewrite Hrows in H1, H2.
  apply list_elem_of_fmap in H1 as (raw1 & -> & Hraw1).
  apply list_elem_of_fmap in H2 as (raw2 & -> & Hraw2).
  rewrite !pad_to_length; [done|by apply max_width_ge..].
Qed.

(** ** From the grid to the rows *)

Lemma row_cells_elem (d : gmap nat text_element) col v :
  d !! col = Some v -> v ∈ row_cells d.
Proof.
  intros H. unfold row_cells. apply list_elem_of_fmap. exists col. split.
  - symmetry. by apply lookup_total_correct.
  - apply sorted_keys_elem. by eexists.
Qed.

(** In a sorted list without repetition a key and its successor are
    neighbours. *)
Lemma sorted_adjacent (l : list nat) k :
  Sorted Nat.le l -> NoDup l -> k ∈ l -> S k ∈ l ->
  exists l1 l2, l = l1 ++ k :: S k :: l2.
Proof.
  intros Hs Hn Hk HSk.
  apply list_elem_of_split in Hk as (l1 & l2 & ->).
  exists l1. apply (Sorted_StronglySorted Nat.le) in Hs.
  apply StronglySorted_app in Hs as (H12 & Hs1 & Hs2).
  apply NoDup_app in Hn as (_ & Hn12 & Hn2).
  apply NoDup_cons in Hn2 as [Hk2 Hn2].
  apply StronglySorted_cons in Hs2 as [Hk_le Hs2].
  apply elem_of_app in HSk as [HSk|HSk].
  { specialize (H12 (S k) k HSk). unfold Nat.le in H12.
    exfalso. assert (k ∈ k :: l2) by left. specialize (H12 H). lia. }
  apply elem_of_cons in HSk as [HSk|HSk]; [lia|].
  destruct l2 as [|x l2]; [by apply elem_of_nil in HSk|].
  exists l2.
  rewrite Forall_cons in Hk_le. destruct Hk_le as [Hkx _].
  assert (x <> k) by (intros ->; apply Hk2; left).
  assert (x = S k) as ->; [|done].
  apply elem_of_cons in HSk as [HSk|HSk]; [congruence|].
  apply StronglySorted_cons in Hs2 as [Hx_le _].
  rewrite Forall_forall in Hx_le. specialize (Hx_le (S k) HSk).
  unfold Nat.le in *. lia.
Qed.

Lemma grid_rows_adjacent (hdict : grid) row d1 d2 :
  hdict !! row = Some d1 -> hdict !! S row = Some d2 ->
  exists before after,
    grid_rows hdict = before ++ row_cells d1 :: row_cells d2 :: after.
Proof.
  intros H1 H2. unfold grid_rows.
  destruct (sorted_adjacent (sorted_keys hdict) row) as (l1 & l2 & ->).
  - apply sorted_keys_Sorted.
  - apply sorted_keys_NoDup.
  - apply sorted_keys_elem. by eexists.
  - apply sorted_keys_elem. by eexists.
  - rewrite map_app. simpl.
    rewrite (lookup_total_correct _ _ _ H1), (lookup_total_correct _ _ _ H2).
    by eexists _, _.
Qed.

Lemma cell_at_Some (hdict : grid) r c v :
  cell_at hdict r c = Some v <->
  exists d, hdict !! r = Some d /\ d !! c = Some v.
Proof.
  unfold cell_at. destruct (hdict !! r) as [d|]; simpl; split.
  - intros H. by exists d.
  - by intros (d' & [= <-] & H).
  - done.
  - by intros (d' & [=] & _).
Qed.

(** ** Span attributes *)

Lemma cell_span_Ok td colspan rowspan :
  cell_span td = Ok (colspan, rowspan) ->
  exists namest nameend morerows,
    parse_colname td "namest" = Ok namest /\
    parse_colname td "nameend" = Ok nameend /\
    Py.int (get_attr td "morerows" "0") = Ok morerows /\
    colspan = ((nameend - namest) + 1)%Z /\ rowspan = (morerows + 1)%Z.
Proof.
  unfold cell_span.
  destruct (parse_colname td "namest") as [a|]; [|done].
  destruct (parse_colname td "nameend") as [b|]; [|done].
  simpl. destruct (Py.int (get_attr td "morerows" "0")) as [m|]; [|done].
  simpl. intros H. exists a, b, m. by simplify_eq.
Qed.

(** In a list of different keys in rising order that holds all the
    keys from [k] to [k + n] and none below [k], the key [k + i] stands
    at index [i]. *)
Lemma sorted_prefix_index (l : list nat) k n :
  StronglySorted Nat.le l -> NoDup l ->
  (forall x, x ∈ l -> k <= x) ->
  (forall c, k <= c <= k + n -> c ∈ l) ->
  forall i, i <= n -> l !! i = Some (k + i).
Proof.
  intros Hs. revert k n. induction Hs as [|x l Hs IH Hx]; intros k n Hnd Hlow Hall i Hi.
  { assert (k ∈ []) as Hk by (apply Hall; lia). by apply elem_of_nil in Hk. }
  apply NoDup_cons in Hnd as [Hxl Hnd].
  assert (x = k) as ->.
  { assert (k ∈ x :: l) as Hk by (apply Hall; lia).
    assert (k <= x) by (apply Hlow, elem_of_cons; by left).
    apply elem_of_cons in Hk as [->|Hk]; [done|].
    rewrite Forall_forall in Hx. specialize (Hx k Hk). unfold Nat.le in Hx. lia. }
  destruct i as [|i]; [cbn; f_equal; lia|].
  cbn [lookup list_lookup]. replace (k + S i) with (S k + i) by lia.
  apply (IH (S k) (n - 1) Hnd); [| |lia].
  - intros y Hy. rewrite Forall_forall in Hx. specialize (Hx y Hy).
    unfold Nat.le in Hx. assert (y <> k) by (intros ->; done). lia.
  - intros c Hc. assert (c ∈ k :: l) as Hin by (apply Hall; lia).
    apply elem_of_cons in Hin as [->|Hin]; [lia|done].
Qed.

(** A cell in column [col] of a grid row stands at index [col] of the
    row read off it when no column to its left is free. *)
Lemma row_cells_index (d : gmap nat text_element) col v :
  (forall c, c < col -> is_Some (d !! c)) -> d !! col = Some v ->
  row_cells d !! col = Some v.
Proof.
  intros Hleft Hv. unfold row_cells. rewrite list_lookup_fmap.
  rewrite (sorted_prefix_index (sorted_keys d) 0 col).
  - cbn. by rewrite (lookup_total_correct _ _ _ Hv).
  - apply (Sorted_StronglySorted Nat.le), sorted_keys_Sorted.
  - apply sorted_keys_NoDup.
  - intros x _. lia.
  - intros c Hc. apply sorted_keys_elem.
    destruct (decide (c = col)) as [->|Hne]; [by eexists|apply Hleft; lia].
  - done.
Qed.

Lemma pad_to_index w r i v : r !! i = Some v -> pad_to w r !! i = Some v.
Proof. intros H. unfold pad_to. by apply lookup_app_l_Some. Qed.

Section RowSpan.

Variable _css : string -> element -> list element.
Variable _parse_text :
  element -> Refs -> Specials -> element_cls -> text_element.

(** C5, amended.  A cell with [morerows="1"] whose column range is not
    reversed is stored in the grid at one and the same column of its
    own row and of the row below, and two consecutive returned rows
    hold it: the one read off its own grid row and the one read off
    the grid row below.  When no column to the left of the cell is
    free in either of the two grid rows, the cell stands at that same
    index in both returned rows. *)
Theorem morerows_one_two_rows els refs specials rows row tr k td
  namest nameend :
  _parse_table_rows _css _parse_text els refs specials = Ok rows ->
  els !! row = Some tr ->
  _css table_cell_css tr !! k = Some td ->
  attrib td !! "morerows" = Some "1" ->
  parse_colname td "namest" = Ok namest ->
  parse_colname td "nameend" = Ok nameend ->
  (namest <= nameend)%Z ->
  let cell := _parse_text td refs specials ClsCell in
  exists hdict col d1 d2 i r1 r2,
    table_grid _css _parse_text els refs specials = Ok hdict /\
    hdict !! row = Some d1 /\ hdict !! S row = Some d2 /\
    d1 !! col = Some cell /\ d2 !! col = Some cell /\
    r1 = pad_to (max_width (grid_rows hdict)) (row_cells d1) /\
    r2 = pad_to (max_width (grid_rows hdict)) (row_cells d2) /\
    rows !! i = Some r1 /\ rows !! S i = Some r2 /\
    cell ∈ r1 /\ cell ∈ r2 /\
    ((forall c, c < col -> is_Some (d1 !! c) /\ is_Some (d2 !! c)) ->
     r1 !! col = Some cell /\ r2 !! col = Some cell).
Proof.
  intros Hrows Htr Htd Hmore Hst Hend Hle cell.
  destruct (parse_table_rows_all _ _ _ _ _ _ Hrows) as (hdict & Hg & ->).
  destruct (table_grid_at_cell _ _ _ _ _ _ _ _ _ _ Hg Htr Htd)
    as ([hd0 c0] & st' & Hs & Hcell & Hkeep).
  apply table_cell_Ok in Hcell as (colspan & rowspan & Hspan & ->).
  apply cell_span_Ok in Hspan as (a & b & m & Ha & Hb & Hm & -> & ->).
  assert (a = namest) as -> by congruence.
  assert (b = nameend) as -> by congruence.
  assert (m = 1%Z) as ->.
  { unfold get_attr in Hm. rewrite Hmore in Hm. vm_compute in Hm. congruence. }
  destruct (span_loops_two_rows cell row (nameend - namest + 1) hd0 c0 Hs)
    as (col & H0 & H1); [lia|].
  apply Hkeep in H0, H1.
  apply cell_at_Some in H0 as (d1 & Hd1 & H0).
  apply cell_at_Some in H1 as (d2 & Hd2 & H1).
  set (width := max_width (grid_rows hdict)).
  destruct (grid_rows_adjacent hdict row d1 d2 Hd1 Hd2)
    as (before & after & Hrows').
  exists hdict, col, d1, d2, (length before),
    (pad_to width (row_cells d1)), (pad_to width (row_cells d2)).
  do 7 (split; [done|]).
  rewrite Hrows', map_app. cbn [map].
  split; [by rewrite lookup_app_r, length_map, Nat.sub_diag
            by (rewrite length_map; lia)|].
  split.
  { rewrite lookup_app_r by (rewrite length_map; lia).
    rewrite length_map. by replace (S (length before) - length before) with 1 by lia. }
  split; [apply elem_of_app; left; by eapply row_cells_elem|].
  split; [apply elem_of_app; left; by eapply row_cells_elem|].
  intros Hleft. split; apply pad_to_index, row_cells_index; try done.
  - intros c Hc. by apply Hleft.
  - intros c Hc. by apply Hleft.
Qed.

End RowSpan.

(** ** Tables without span attributes *)

Lemma no_span_cell_span td :
  attrib td !! "namest" = None -> attrib td !! "nameend" = None ->
  attrib td !! "morerows" = None ->
  cell_span td = Ok (1%Z, 1%Z).
Proof.
  intros H1 H2 H3. unfold cell_span, parse_colname, get_attr.
  rewrite H1, H2, H3. reflexivity.
Qed.

Lemma row_cells_map_seq (l : list text_element) :
  row_cells (map_seq 0 l) = l.
Proof.
  unfold row_cells. rewrite sorted_keys_map_seq.
  apply list_eq. intros i. rewrite list_lookup_fmap.
  destruct (decide (i < length l)) as [Hi|Hi].
  - rewrite lookup_seq_lt by done. simpl.
    destruct (lookup_lt_is_Some_2 l i Hi) as [v Hv]. rewrite Hv.
    f_equal. apply lookup_total_correct. by rewrite lookup_map_seq_0.
  - rewrite lookup_seq_ge by lia. simpl. symmetry.
    apply lookup_ge_None. lia.
Qed.

(** One cell of span 1 x 1 in a row whose cells so far are [cs]. *)
Lemma span_loops_unit cell row (hdict : grid) (cs : list text_element) :
  default ∅ (hdict !! row) = map_seq 0 cs ->
  span_loops cell row 1 1 (hdict, length cs) =
  (<[row := map_seq 0 (cs ++ [cell])]> hdict, S (length cs)).
Proof.
  intros Hd. unfold span_loops, span_step, range. simpl.
  rewrite Nat.add_0_r.
  assert (default ∅ (match hdict !! row with
                     | Some _ => hdict
                     | None => <[row := ∅]> hdict
                     end !! row) = map_seq 0 cs) as Hd'.
  { destruct (hdict !! row) eqn:E; [by rewrite E|].
    by rewrite lookup_insert_eq. }
  rewrite Hd'.
  rewrite skip_occupied_here.
  2:{ rewrite lookup_map_seq_0. apply lookup_ge_None. lia. }
  f_equal. rewrite map_seq_snoc. simpl.
  destruct (hdict !! row); [done|]. by rewrite insert_insert_eq.
Qed.

Lemma raw_grid_lookup raw i :
  raw_grid raw !! i =
  raw !! i ≫= (fun cs => match cs with [] => None | _ :: _ => Some (map_seq 0 cs) end).
Proof. unfold raw_grid. by rewrite lookup_omap, lookup_map_seq_0. Qed.

Lemma raw_grid_snoc raw cs :
  raw_grid (raw ++ [cs]) =
  match cs with
  | [] => raw_grid raw
  | _ :: _ => <[length raw := map_seq 0 cs]> (raw_grid raw)
  end.
Proof.
  apply map_eq. intros i. rewrite raw_grid_lookup.
  destruct (decide (i < length raw)) as [Hi|Hi].
  - rewrite lookup_app_l by done.
    destruct cs; [by rewrite raw_grid_lookup|].
    rewrite lookup_insert_ne by lia. by rewrite raw_grid_lookup.
  - rewrite lookup_app_r by lia.
    destruct (decide (i = length raw)) as [->|Hne].
    + rewrite Nat.sub_diag. simpl. destruct cs.
      * rewrite raw_grid_lookup, (proj2 (lookup_ge_None raw (length raw))); [done|lia].
      * by rewrite lookup_insert_eq.
    + replace (i - length raw) with (S (i - length raw - 1)) by lia. simpl.
      assert (raw_grid raw !! i = None) as Hnone.
      { rewrite raw_grid_lookup, (proj2 (lookup_ge_None raw i)); [done|lia]. }
      destruct cs; [done|]. by rewrite lookup_insert_ne by lia.
Qed.

Lemma sorted_keys_insert_max {A : Type} (m : gmap nat A) n v :
  (forall k, is_Some (m !! k) -> k < n) ->
  sorted_keys (<[n := v]> m) = sorted_keys m ++ [n].
Proof.
  intros Hmax. apply sorted_keys_unique.
  - apply StronglySorted_Sorted, StronglySorted_app_2.
    + intros x1 x2 H1%sorted_keys_elem H2%list_elem_of_singleton. subst x2.
      apply Hmax in H1. unfold Nat.le. lia.
    + apply (Sorted_StronglySorted Nat.le), sorted_keys_Sorted.
    + repeat constructor.
  - apply NoDup_app. split; [apply sorted_keys_NoDup|]. split.
    + intros x H1%sorted_keys_elem H2%list_elem_of_singleton. subst x.
      apply Hmax in H1. lia.
    + apply NoDup_singleton.
  - intros k. rewrite elem_of_app, sorted_keys_elem, list_elem_of_singleton.
    rewrite lookup_insert_is_Some. destruct (decide (n = k)); intuition congruence.
Qed.

Lemma grid_rows_insert_max (hdict : grid) n d :
  (forall k, is_Some (hdict !! k) -> k < n) ->
  grid_rows (<[n := d]> hdict) = grid_rows hdict ++ [row_cells d].
Proof.
  intros Hmax. unfold grid_rows. rewrite sorted_keys_insert_max by done.
  rewrite map_app. simpl. rewrite lookup_total_insert_eq. f_equal.
  apply map_ext_in. intros k Hk%list_elem_of_In%sorted_keys_elem.
  apply Hmax in Hk. by rewrite lookup_total_insert_ne by lia.
Qed.

Lemma raw_grid_keys raw k : is_Some (raw_grid raw !! k) -> k < length raw.
Proof.
  rewrite raw_grid_lookup. intros [v Hv].
  destruct (raw !! k) eqn:E; [|done]. by eapply lookup_lt_Some.
Qed.

Lemma grid_rows_empty : grid_rows ∅ = [].
Proof.
  unfold grid_rows.
  rewrite (sorted_keys_unique (∅ : grid) []); [done|constructor|constructor|].
  intros k. rewrite lookup_empty. split; [by intros ?%elem_of_nil|by intros [??]].
Qed.

(** Read back, the grid of a raw layout gives its rows that have
    cells. *)
Lemma grid_rows_raw_grid raw :
  grid_rows (raw_grid raw) = filter (fun cs => 0 < length cs) raw.
Proof.
  induction raw as [|cs raw IH] using rev_ind.
  - unfold raw_grid. simpl. rewrite omap_empty. apply grid_rows_empty.
  - rewrite raw_grid_snoc, filter_app. destruct cs as [|c cs].
    + rewrite IH. simpl. by rewrite app_nil_r.
    + rewrite grid_rows_insert_max by apply raw_grid_keys.
      rewrite IH, row_cells_map_seq. f_equal.
Qed.

Section NoSpans.

Variable _css : string -> element -> list element.
Variable _parse_text :
  element -> Refs -> Specials -> element_cls -> text_element.

Local Abbreviation convert refs specials :=
  (fun td => _parse_text td refs specials ClsCell).

(** The cells of a row without span attributes fill the columns
    [0, 1, 2, ...] of a row that was free. *)
Lemma no_span_cells refs specials row tds (hdict : grid) :
  Forall no_span tds -> hdict !! row = None ->
  for_each (table_cell _parse_text refs specials row) tds (hdict, 0) =
  Ok (match tds with
      | [] => hdict
      | _ :: _ => <[row := map_seq 0 (map (convert refs specials) tds)]> hdict
      end, length tds).
Proof.
  intros Hno Hfree. induction tds as [|td tds IH] using rev_ind; [done|].
  apply Forall_app in Hno as [Hno Htd].
  apply Forall_singleton in Htd as (H1 & H2 & H3).
  rewrite for_each_app, (IH Hno). cbn [for_each].
  unfold table_cell. rewrite (no_span_cell_span td H1 H2 H3).
  cbn [mbind result_bind].
  rewrite <- (length_map (convert refs specials) tds).
  rewrite span_loops_unit.
  2:{ destruct tds; simpl; [by rewrite Hfree|by rewrite lookup_insert_eq]. }
  rewrite map_app, !length_app, !length_map. simpl.
  replace (length tds + 1) with (S (length tds)) by lia.
  destruct tds as [|t tds]; simpl; [done|].
  by rewrite insert_insert_eq.
Qed.

Lemma no_spans_grid els refs specials :
  no_spans _css els ->
  table_grid _css _parse_text els refs specials =
  Ok (raw_grid (raw_layout _css _parse_text els refs specials)).
Proof.
  unfold table_grid, no_spans, enumerate.
  induction els as [|tr els IH] using rev_ind; intros Hno.
  - simpl. unfold raw_grid. simpl. by rewrite omap_empty.
  - apply Forall_app in Hno as [Hno Htr].
    rewrite Forall_singleton in Htr.
    rewrite zip_seq_app, for_each_app, (IH Hno). cbn [for_each zip_with seq length Nat.add].
    unfold table_row.
    rewrite (no_span_cells refs specials (length els) _ _ Htr).
    2:{ destruct (raw_grid _ !! length els) eqn:E; [|done].
        assert (length els < length (raw_layout _css _parse_text els refs specials)).
        { apply raw_grid_keys. by eexists. }
        unfold raw_layout in *. rewrite length_map in *. lia. }
    cbn [fmap result_fmap fst].
    unfold raw_layout. rewrite map_app. simpl map.
    rewrite raw_grid_snoc, length_map.
    by destruct (_css table_cell_css tr).
Qed.

Lemma kept_rows_pass (kept : list (list text_element)) w :
  Forall (fun cs => 0 < length cs) kept ->
  filter (fun r => any r = true) (map (pad_to w) kept) = map (pad_to w) kept.
Proof.
  induction 1 as [|cs l Hcs _ IH]; [done|].
  cbn [map]. rewrite filter_cons_True, IH; [done|].
  apply any_true_iff, pad_to_nonempty. by destruct cs; [simpl in Hcs; lia|].
Qed.

(** C4, amended.  For a table without span attributes the returned
    rows are the raw layout without the rows that have no cells, each
    row padded on the right with empty cells to the widest row.  When
    all raw rows have one and the same number of cells, at least one,
    the returned rows are the raw layout itself. *)
Theorem no_spans_rows els refs specials :
  no_spans _css els ->
  let raw := raw_layout _css _parse_text els refs specials in
  let kept := filter (fun cs => 0 < length cs) raw in
  _parse_table_rows _css _parse_text els refs specials =
  Ok (map (pad_to (max_width kept)) kept)
  /\ (forall w, 0 < w -> Forall (fun cs => length cs = w) raw ->
      _parse_table_rows _css _parse_text els refs specials = Ok raw).
Proof.
  intros Hno raw kept.
  assert (_parse_table_rows _css _parse_text els refs specials =
          Ok (map (pad_to (max_width kept)) kept)) as Hgen.
  { unfold _parse_table_rows. rewrite (no_spans_grid _ _ _ Hno).
    cbn [fmap result_fmap]. rewrite finish_rows_eq.
    rewrite grid_rows_raw_grid. fold raw. fold kept. f_equal.
    apply kept_rows_pass. subst kept.
    apply Forall_forall. by intros cs [Hcs _]%list_elem_of_filter. }
  split; [done|]. intros w Hw Hall. rewrite Hgen. f_equal.
  assert (kept = raw) as ->.
  { subst kept. clear Hgen. induction Hall as [|cs l Hcs _ IH]; [done|].
    rewrite filter_cons_True, IH; [done|lia]. }
  assert (forall cs, cs ∈ raw -> length cs = max_width raw) as Hlen.
  { clear Hgen. intros cs Hin.
    assert (max_width raw <= w).
    { clear Hin. induction Hall as [|cs' l Hcs _ IH];
        [unfold max_width; simpl; lia|].
      rewrite max_width_cons. lia. }
    rewrite Forall_forall in Hall. specialize (Hall cs Hin).
    pose proof (max_width_ge raw cs Hin). lia. }
  rewrite <- (map_id raw) at 3. apply map_ext_in.
  intros cs Hin%list_elem_of_In. unfold pad_to.
  rewrite (Hlen cs Hin), Nat.sub_diag. apply app_nil_r.
Qed.

End NoSpans.

(** ** Column names *)

Lemma rev_app_rev_app s t u :
  String.rev_app (String.rev_app s t) u = String.rev_app t (s +:+ u).
Proof.
  revert t u. induction s as [|a s IH]; intros t u; simpl; [done|].
  by rewrite IH.
Qed.

Lemma string_app_nil_r s : s +:+ "" = s.
Proof. induction s as [|a s IH]; simpl; [done|]. unfold String.app in *. simpl. by rewrite IH. Qed.

Lemma string_rev_involutive s : String.rev (String.rev s) = s.
Proof.
  unfold String.rev. rewrite rev_app_rev_app. simpl. apply string_app_nil_r.
Qed.

Lemma chars_all_rev_app p s t :
  chars_all p s = true -> chars_all p t = true ->
  chars_all p (String.rev_app s t) = true.
Proof.
  revert t. induction s as [|a s IH]; intros t Hs Ht; simpl in *; [done|].
  apply andb_true_iff in Hs as [Ha Hs]. apply IH; [done|].
  simpl. by rewrite Ha, Ht.
Qed.

Lemma digit_not_space a : Py.is_digit a = true -> Py.is_space a = false.
Proof.
  unfold Py.is_digit, Py.is_space. intros H.
  apply andb_true_iff in H as [H1 H2].
  apply Nat.leb_le in H1, H2.
  repeat match goal with
         | |- context [?x <=? ?y] => destruct (Nat.leb_spec x y); try lia
         | |- context [?x =? ?y] => destruct (Nat.eqb_spec x y); try lia
         end.
  all: done.
Qed.

Lemma lstrip_digits s : chars_all Py.is_digit s = true -> Py.lstrip s = s.
Proof.
  destruct s as [|a s]; simpl; [done|].
  intros [Ha _]%andb_true_iff. by rewrite (digit_not_space a Ha).
Qed.

Lemma strip_digits s : chars_all Py.is_digit s = true -> Py.strip s = s.
Proof.
  intros H. unfold Py.strip. rewrite (lstrip_digits s H).
  rewrite lstrip_digits; [apply string_rev_involutive|].
  by apply chars_all_rev_app.
Qed.

(** [split] finds no separator in a string of digits. *)
Lemma split_go_digits cur s :
  chars_all Py.is_digit s = true ->
  Py.split_go "col" 0 cur s = [String.rev_app cur s].
Proof.
  revert cur. induction s as [|a s IH]; intros cur H; simpl in *; [done|].
  apply andb_true_iff in H as [Ha Hs].
  destruct (decide ("c"%char = a)) as [<-|Hne]; [done|].
  by rewrite IH.
Qed.

Lemma split_digits s :
  chars_all Py.is_digit s = true -> Py.split "col" s = [s].
Proof. intros H. unfold Py.split. by rewrite split_go_digits. Qed.

Lemma split_col_digits s :
  chars_all Py.is_digit s = true -> Py.split "col" ("col" +:+ s) = [""; s].
Proof.
  intros H. unfold Py.split.
  change ("col" +:+ s) with (String "c" (String "o" (String "l" s))).
  cbn. by rewrite split_go_digits.
Qed.

Lemma digit_char_facts d :
  d < 10 ->
  Py.is_digit (digit_char d) = true /\ Py.digit_val (digit_char d) = Z.of_nat d /\
  digit_char d <> "+"%char /\ digit_char d <> "-"%char.
Proof.
  intros H.
  do 10 (destruct d as [|d]; [by vm_compute|]). lia.
Qed.

Lemma numeral_digits ds :
  Forall (fun d => d < 10) ds -> chars_all Py.is_digit (numeral ds) = true.
Proof.
  induction 1 as [|d ds Hd _ IH]; [done|].
  cbn [numeral fold_right chars_all].
  destruct (digit_char_facts d Hd) as (-> & _). exact IH.
Qed.

Lemma digits_go_numeral ds acc :
  Forall (fun d => d < 10) ds ->
  Py.digits_go acc (numeral ds) =
  Some (fold_left (fun acc d => (10 * acc + Z.of_nat d)%Z) ds acc).
Proof.
  intros H. revert acc. induction H as [|d ds Hd _ IH]; intros acc; [done|].
  cbn [numeral fold_right Py.digits_go fold_left].
  destruct (digit_char_facts d Hd) as (-> & -> & _). apply IH.
Qed.

Lemma sign_match_digit d r :
  d < 10 ->
  match String (digit_char d) r with
  | String "+" r' => Py.digits r'
  | String "-" r' => Z.opp <$> Py.digits r'
  | r' => Py.digits r'
  end = Py.digits (String (digit_char d) r).
Proof.
  intros Hd.
  do 10 (destruct d as [|d]; [reflexivity|]). exfalso; lia.
Qed.

(** [int] reads a decimal numeral as the number it denotes. *)
Lemma int_numeral ds :
  decimal_digits ds -> Py.int (numeral ds) = Ok (numeral_value ds).
Proof.
  intros [Hne Hds]. unfold Py.int.
  rewrite strip_digits by (apply numeral_digits, Hds).
  destruct ds as [|d ds]; [done|].
  inversion Hds as [|? ? Hd Hds']; subst.
  cbn [numeral fold_right].
  rewrite (sign_match_digit d _ Hd).
  cbn [Py.digits].
  change (String (digit_char d) (fold_right (fun d s => String (digit_char d) s) "" ds))
    with (numeral (d :: ds)).
  rewrite (digits_go_numeral (d :: ds) 0%Z Hds).
  by destruct (digit_char_facts d Hd) as (-> & _).
Qed.

Lemma numeral_nonempty ds : ds <> [] -> nonempty (numeral ds) = true.
Proof. by destruct ds. Qed.

(** A column name that is absent, [N] or [colN] is read as 1 or N. *)
Lemma parse_colname_denotes td name v :
  colname_denotes td name v -> parse_colname td name = Ok v.
Proof.
  intros [[H ->]|(ds & Hds & -> & [H|H])]; unfold parse_colname, get_attr;
    rewrite H.
  - done.
  - rewrite split_digits by (apply numeral_digits, Hds).
    rewrite filter_cons_True by (apply numeral_nonempty, Hds).
    simpl. by apply int_numeral.
  - rewrite split_col_digits by (apply numeral_digits, Hds).
    rewrite filter_cons_False by done.
    rewrite filter_cons_True by (apply numeral_nonempty, Hds).
    simpl. by apply int_numeral.
Qed.

(** C10, amended.  The columns at which a cell starts and ends are read
    from [namest] and [nameend]: the value is split at [col] and the
    first piece that is not empty is converted to an integer.  For a
    value [colN] or [N], with [N] a decimal numeral, the column is [N],
    and an absent attribute gives column 1; the cell then spans
    [nameend - namest + 1] columns, and as many rows as [morerows]
    says. *)
Theorem cell_span_colnames td a b :
  colname_denotes td "namest" a -> colname_denotes td "nameend" b ->
  parse_colname td "namest" = Ok a /\
  parse_colname td "nameend" = Ok b /\
  cell_span td =
  (morerows ← Py.int (get_attr td "morerows" "0");
   Ok ((b - a + 1)%Z, (morerows + 1)%Z)).
Proof.
  intros Ha%parse_colname_denotes Hb%parse_colname_denotes.
  split; [done|]. split; [done|].
  unfold cell_span. by rewrite Ha, Hb.
Qed.

(** A cell from column [3] to column [col5] spans three columns. *)
Lemma cell_span_colnames_witness :
  colname_denotes (entry {[ "namest" := "3"; "nameend" := "col5" ]} "x")
    "namest" 3 /\
  colname_denotes (entry {[ "namest" := "3"; "nameend" := "col5" ]} "x")
    "nameend" 5 /\
  cell_span (entry {[ "namest" := "3"; "nameend" := "col5" ]} "x") =
  Ok (3%Z, 1%Z).
Proof.
  assert (colname_denotes (entry {[ "namest" := "3"; "nameend" := "col5" ]} "x")
            "namest" 3) as Ha.
  { right. exists [3]. split; [split; [done|repeat constructor; lia]|].
    split; [reflexivity|]. left. vm_compute. reflexivity. }
  assert (colname_denotes (entry {[ "namest" := "3"; "nameend" := "col5" ]} "x")
            "nameend" 5) as Hb.
  { right. exists [5]. split; [split; [done|repeat constructor; lia]|].
    split; [reflexivity|]. right. vm_compute. reflexivity. }
  split; [exact Ha|]. split; [exact Hb|].
  destruct (cell_span_colnames _ 3%Z 5%Z Ha Hb) as (_ & _ & ->).
  vm_compute. reflexivity.
Defined.

(** C10 as stated fails for a value with [col] inside: in [1col2] the
    piece before [col] is converted and the rest is dropped, where
    taking [col] out would leave [12].  The cell from [col1] to [1col2]
    spans one column, not twelve. *)
Lemma colname_not_stripped :
  strip_col "1col2" = "12" /\
  stripped_colname mixed_cell "nameend" = Ok 12%Z /\
  parse_colname mixed_cell "nameend" = Ok 1%Z /\
  stripped_colspan mixed_cell = Ok 12%Z /\
  cell_span mixed_cell = Ok (1%Z, 1%Z).
Proof. repeat split; vm_compute; reflexivity. Qed.

Example parse_colname_examples :
  parse_colname (entry {[ "namest" := "col12" ]} "x") "namest" = Ok 12%Z /\
  parse_colname (entry {[ "namest" := "007" ]} "x") "namest" = Ok 7%Z /\
  parse_colname (entry {[ "namest" := "col1_0" ]} "x") "namest" = Ok 10%Z /\
  parse_colname (entry {[ "namest" := "col" ]} "x") "namest" = Raise IndexError /\
  parse_colname (entry {[ "namest" := "colA" ]} "x") "namest" = Raise ValueError.
Proof. repeat split; vm_compute; reflexivity. Qed.

(** ** Prefixes, suffixes and substrings *)

Lemma string_app_assoc s t u : (s +:+ t) +:+ u = s +:+ (t +:+ u).
Proof.
  unfold String.app. induction s as [|a s IH]; simpl; [done|]. by rewrite IH.
Qed.

Lemma startswith_spec p s :
  Py.startswith p s = true <-> exists r, s = p +:+ r.
Proof.
  unfold String.app. revert s. induction p as [|a p IH]; intros s; simpl.
  - split; [by exists s|done].
  - destruct s as [|b s].
    + split; [done|by intros [r Hr]].
    + destruct (decide (a = b)) as [->|Hne].
      * rewrite IH. split; intros [r Hr]; exists r; congruence.
      * split; [done|]. intros [r Hr]. congruence.
Qed.

Lemma contains_spec needle hay :
  Py.contains needle hay = true <->
  exists pre post, hay = pre +:+ needle +:+ post.
Proof.
  unfold String.app. induction hay as [|a hay IH]; simpl.
  - rewrite startswith_spec. split.
    + intros [r Hr]. by exists "", r.
    + intros (pre & post & H). destruct pre; [by exists post|done].
  - rewrite orb_true_iff, IH, startswith_spec. split.
    + intros [[r Hr]|(pre & post & H)].
      * by exists "", r.
      * exists (String a pre), post. simpl. by rewrite H.
    + intros (pre & post & H). destruct pre as [|b pre].
      * left. by exists post.
      * right. exists pre, post. simpl in H. congruence.
Qed.

Lemma rev_app_app s t : String.rev_app s t = String.rev s +:+ t.
Proof.
  unfold String.rev. revert t. induction s as [|a s IH]; intros t; simpl; [done|].
  rewrite IH, (IH (String a "")). by rewrite string_app_assoc.
Qed.

Lemma rev_app_append s t u :
  String.rev_app (s +:+ t) u = String.rev_app t (String.rev_app s u).
Proof.
  unfold String.app. revert u. induction s as [|a s IH]; intros u; simpl; [done|].
  apply IH.
Qed.

Lemma string_rev_app_distr s t : String.rev (s +:+ t) = String.rev t +:+ String.rev s.
Proof.
  unfold String.rev at 1. rewrite rev_app_append. apply rev_app_app.
Qed.

Lemma endswith_spec p s :
  Py.endswith p s = true <-> exists pre, s = pre +:+ p.
Proof.
  unfold Py.endswith. rewrite startswith_spec. split.
  - intros [r Hr]. exists (String.rev r).
    rewrite <- (string_rev_involutive s), Hr, string_rev_app_distr.
    by rewrite string_rev_involutive.
  - intros [pre ->]. exists (String.rev pre). apply string_rev_app_distr.
Qed.

(** ** detect *)

(** The detector says yes only for content that holds the namespace
    declaration, character for character. *)
Lemma detect_true_contains fstring fname :
  detect fstring fname = true ->
  exists pre post, fstring = pre +:+ elsevier_ns +:+ post.
Proof.
  unfold detect. intros H. apply contains_spec.
  destruct (Py.truthy fname && negb (Py.endswith ".xml" (Py.or_empty fname)));
    [done|].
  by destruct (Py.contains elsevier_ns fstring).
Qed.

(** C9, amended.  [detect] returns true only when the content contains
    the namespace declaration string exactly, and it returns false for
    every non-empty filename that does not end in [.xml], whatever the
    content.  An empty filename counts as no filename. *)
Theorem detect_sound :
  (forall fstring fname,
     detect fstring fname = true ->
     exists pre post, fstring = pre +:+ elsevier_ns +:+ post) /\
  (forall fstring fname,
     fname <> "" -> ~ (exists pre, fname = pre +:+ ".xml") ->
     detect fstring (Some fname) = false) /\
  (forall fstring, detect fstring (Some "") = detect fstring None).
Proof.
  split; [apply detect_true_contains|]. split; [|done].
  intros fstring fname Hne Hext. unfold detect.
  assert (Py.endswith ".xml" fname = false) as Hend.
  { destruct (Py.endswith ".xml" fname) eqn:E; [|done].
    by apply endswith_spec in E. }
  simpl. rewrite Hend. by destruct fname.
Qed.

(** C9 as stated fails for the empty filename: it does not end in
    [.xml], yet the content alone decides. *)
Lemma detect_empty_filename :
  detect elsevier_ns (Some "") = true /\
  Py.endswith ".xml" "" = false /\
  ~ (forall fstring fname,
       Py.endswith ".xml" fname = false -> detect fstring (Some fname) = false).
Proof.
  split; [reflexivity|]. split; [reflexivity|].
  intros H. specialize (H elsevier_ns "" eq_refl). vm_compute in H. done.
Qed.

(** ** The splice pass *)

(** Induction over a tree, with the property for all children. *)
Lemma element_tree_ind (P : element -> Prop) :
  (forall tg at_ tx tl kids,
     Forall P kids -> P (Element tg at_ tx tl kids)) ->
  forall el, P el.
Proof.
  intros H. fix IH 1. intros [tg at_ tx tl kids]. apply H.
  induction kids as [|k kids IHk]; constructor; [apply IH|apply IHk].
Qed.

Lemma splice_el_kept extra tg at_ tx tl kids st :
  is_splice tg = false ->
  splice_el extra (Element tg at_ tx tl kids) st =
  (st.1,
   Element tg at_ (splice_children kids (tx, [])).1 (with_extra tl extra)
     (rev (splice_children kids (tx, [])).2) :: st.2).
Proof.
  intros Htg. cbn [splice_el]. rewrite Htg. unfold splice_children.
  set (go := fix go (ks : list element) (st0 : left_context) {struct ks} :=
         match ks with
         | [] => st0
         | k :: ks' => go ks' (splice_el None k st0)
         end).
  assert (forall ks s, go ks s = fold_left (fun st k => splice_el None k st) ks s)
    as Hgo.
  { induction ks as [|k ks IHks]; intros s; simpl; [done|apply IHks]. }
  by rewrite Hgo.
Qed.

(** A splice node without children: its text, then its tail, merge to
    the left, and the node is gone. *)
Lemma splice_el_hsp extra attrs tx tl st :
  splice_el extra (hsp attrs tx tl) st =
  merge_tail (with_extra tl extra) (merge_text tx st).
Proof. reflexivity. Qed.

(** The pass leaves a tree without splice nodes as it is. *)
Lemma splice_hsp_free el st :
  hsp_free el = true -> splice_el None el st = (st.1, el :: st.2).
Proof.
  revert st. induction el as [tg at_ tx tl kids IH] using element_tree_ind.
  intros st Hfree. cbn [hsp_free] in Hfree.
  apply andb_true_iff in Hfree as [Htg Hkids]. apply negb_true_iff in Htg.
  rewrite splice_el_kept by done.
  assert (forall acc,
             splice_children kids (tx, acc) = (tx, rev kids ++ acc)) as Hall.
  { unfold splice_children. clear Htg.
    induction kids as [|k kids IHk]; intros acc; [done|].
    cbn [forallb] in Hkids. apply andb_true_iff in Hkids as [Hk Hkids].
    apply Forall_cons in IH as [IHhd IHtl].
    cbn [fold_left]. rewrite (IHhd _ Hk). cbn [fst snd].
    rewrite (IHk IHtl Hkids). simpl. by rewrite <- app_assoc. }
  rewrite Hall. cbn [fst snd]. rewrite app_nil_r, List.rev_involutive. done.
Qed.

Lemma splice_children_hsp_free kids st :
  forallb hsp_free kids = true ->
  splice_children kids st = (st.1, rev kids ++ st.2).
Proof.
  unfold splice_children. revert st.
  induction kids as [|k kids IH]; intros st Hfree; [by destruct st|].
  cbn [forallb] in Hfree. apply andb_true_iff in Hfree as [Hk Hkids].
  cbn [fold_left]. rewrite (splice_hsp_free _ _ Hk), (IH _ Hkids).
  cbn [fst snd]. simpl. by rewrite <- app_assoc.
Qed.

Lemma splice_children_app xs ys st :
  splice_children (xs ++ ys) st = splice_children ys (splice_children xs st).
Proof. apply fold_left_app. Qed.

Lemma with_extra_None tl : with_extra tl None = tl.
Proof. done. Qed.



(** The text of a splice node is dropped when the target on its left is
    [None] or empty. *)
Lemma hsp_text_dropped tg at_ tx tl attrs x post :
  Py.truthy tx = false -> forallb hsp_free post = true ->
  fix_elsevier_xml_whitespace
    (Element tg at_ tx tl (hsp attrs (Some x) None :: post)) =
  Element tg at_ tx tl post.
Proof.
  intros Htx Hpost. unfold fix_elsevier_xml_whitespace.
  cbn [children text tag attrib tail].
  change (hsp attrs (Some x) None :: post)
    with ([hsp attrs (Some x) None] ++ post).
  rewrite splice_children_app.
  assert (splice_children [hsp attrs (Some x) None] (tx, []) = (tx, [])) as ->.
  { unfold splice_children. cbn [fold_left]. rewrite splice_el_hsp.
    rewrite with_extra_None. unfold merge_text.
    destruct (Py.truthy (Some x)); rewrite ?Htx; reflexivity. }
  rewrite splice_children_hsp_free by done. cbn [fst snd].
  by rewrite app_nil_r, List.rev_involutive.
Qed.

(** C6.  The text of a splice node is lost when the node has no
    previous sibling and its parent has no text, and when its previous
    sibling has no tail: here the text [x] disappears from the tree. *)
Theorem hsp_text_lost :
  fix_elsevier_xml_whitespace
    (node "ce:para" None None [hsp ∅ (Some "x") None]) =
  node "ce:para" None None []
  /\
  fix_elsevier_xml_whitespace
    (node "ce:para" (Some "a") None
       [node "ce:bold" (Some "b") None []; hsp ∅ (Some "x") None]) =
  node "ce:para" (Some "a") None [node "ce:bold" (Some "b") None []].
Proof. split; reflexivity. Qed.




(** ** Metadata *)

Section Metadata.

Variable _css : string -> element -> list element.
Variables language_css pdf_url_css html_url_css : option string.


End Metadata.


(** ** Figures *)

Section Figures.

Variable _css : string -> element -> list element.
Variable _parse_text :
  element -> Refs -> Specials -> element_cls -> text_element.

(** Without a link no figure comes back: after the filenames are
    filtered, item [0] of the empty list of links is taken. *)
Lemma parse_figure_no_link el root refs specials :
  _css figure_link_css el = [] ->
  exists e, _parse_figure _css _parse_text el root refs specials = Raise e.
Proof.
  intros Hlink. unfold _parse_figure. rewrite Hlink. cbn.
  destruct (filter_r _ _) as [cands|e]; cbn; by eexists.
Qed.

(** When [_parse_figure] returns, it returns one figure. *)
Lemma parse_figure_one el root refs specials figs :
  _parse_figure _css _parse_text el root refs specials = Ok figs ->
  exists fig, figs = [fig].
Proof.
  unfold _parse_figure. intros H.
  destruct (match _css figure_link_css el with
            | [] => Ok (Some "")
            | l :: _ => Some <$> attrib_item l "locator"
            end) as [img_id|]; [|done].
  cbn in H.
  match type of H with
  | context [match ?x with Ok _ => _ | Raise _ => _ end] =>
      destruct x as [img_url|]
  | context [mbind _ ?x] => destruct x as [img_url|]
  end; [|done].
  cbn in H. injection H as <-. by eexists.
Qed.

End Figures.

(** C1.  For a figure without a link [_parse_figure] raises and returns
    no figure, and so it does for a figure with a link in a document
    that declares no large image for it; with the image declared, one
    figure comes back. *)
Theorem parse_figure_without_link :
  _parse_figure css_select text_of figure_no_link
    (document_of [figure_no_link]) [] [] = Raise IndexError
  /\
  _parse_figure css_select text_of figure_with_link
    (document_of [figure_with_link]) [] [] = Raise AttributeError
  /\
  _parse_figure css_select text_of figure_with_link
    (document_of [figure_with_link; attachment "gr1_lrg.jpg"]) [] [] =
  Ok [ Figure (Caption "A caption")
         "https://ars.els-cdn.com/content/image/1-s2.0-S0000000000000000-gr1_lrg.jpg"
         "gr1" ].
Proof. repeat split; vm_compute; reflexivity. Qed.

(** ** Which calls raise a reader error *)

Lemma bind_no_reader_error {A B : Type} (m : result A) (f : A -> result B) :
  no_reader_error m -> (forall a, no_reader_error (f a)) ->
  no_reader_error (m ≫= f).
Proof.
  intros Hm Hf. destruct m as [a|e]; [apply Hf|].
  intros [= ->]. by apply Hm.
Qed.

Lemma fmap_no_reader_error {A B : Type} (m : result A) (f : A -> B) :
  no_reader_error m -> no_reader_error (f <$> m).
Proof. intros Hm. destruct m as [a|e]; [done|]. intros [= ->]. by apply Hm. Qed.

Lemma Ok_no_reader_error {A : Type} (a : A) : no_reader_error (Ok a).
Proof. done. Qed.

Lemma index0_no_reader_error {A : Type} (xs : list A) :
  no_reader_error (index0 xs).
Proof. by destruct xs. Qed.

Lemma for_each_no_reader_error {A S : Type} (body : A -> S -> result S) xs s :
  (forall x s, no_reader_error (body x s)) ->
  no_reader_error (for_each body xs s).
Proof.
  intros Hb. revert s. induction xs as [|x xs IH]; intros s; simpl; [done|].
  destruct (body x s) as [s'|e] eqn:E; [apply IH|].
  intros [= ->]. by apply (Hb x s).
Qed.

Lemma int_no_reader_error s : no_reader_error (Py.int s).
Proof.
  unfold Py.int.
  match goal with |- no_reader_error (match ?b with _ => _ end) => by destruct b end.
Qed.

Lemma attrib_item_no_reader_error el name :
  no_reader_error (attrib_item el name).
Proof. unfold attrib_item. by destruct (attrib el !! name). Qed.

Lemma str_add_no_reader_error a b : no_reader_error (str_add a b).
Proof. by destruct b. Qed.

Lemma str_in_no_reader_error a b : no_reader_error (str_in a b).
Proof. by destruct b. Qed.

Lemma filter_r_no_reader_error {A : Type} (cond : A -> result bool) xs :
  (forall x, no_reader_error (cond x)) -> no_reader_error (filter_r cond xs).
Proof.
  intros Hc. induction xs as [|x xs IH]; simpl; [done|].
  apply bind_no_reader_error; [apply Hc|]. intros b.
  apply bind_no_reader_error; [apply IH|]. done.
Qed.

Create HintDb reader_error.

#[local] Hint Resolve Ok_no_reader_error index0_no_reader_error
  int_no_reader_error attrib_item_no_reader_error str_add_no_reader_error
  str_in_no_reader_error : reader_error.

Lemma parse_colname_no_reader_error td name :
  no_reader_error (parse_colname td name).
Proof.
  unfold parse_colname.
  apply bind_no_reader_error; auto with reader_error.
Qed.

Lemma cell_span_no_reader_error td : no_reader_error (cell_span td).
Proof.
  unfold cell_span.
  apply bind_no_reader_error; [apply parse_colname_no_reader_error|intros a].
  apply bind_no_reader_error; [apply parse_colname_no_reader_error|intros b].
  apply bind_no_reader_error; auto with reader_error.
Qed.

Section ReaderErrors.

Variable _css : string -> element -> list element.
Variable _parse_text :
  element -> Refs -> Specials -> element_cls -> text_element.

Lemma parse_table_rows_no_reader_error els refs specials :
  no_reader_error (_parse_table_rows _css _parse_text els refs specials).
Proof.
  unfold _parse_table_rows, table_grid. apply fmap_no_reader_error.
  apply for_each_no_reader_error. intros [row tr] hdict.
  unfold table_row. apply fmap_no_reader_error.
  apply for_each_no_reader_error. intros td st. unfold table_cell.
  apply bind_no_reader_error; [apply cell_span_no_reader_error|].
  by intros [colspan rowspan].
Qed.

Lemma parse_figure_no_reader_error el root refs specials :
  no_reader_error (_parse_figure _css _parse_text el root refs specials).
Proof.
  unfold _parse_figure.
  apply bind_no_reader_error.
  { destruct (_css figure_link_css el); [done|].
    apply fmap_no_reader_error. auto with reader_error. }
  intros [id|].
  - apply bind_no_reader_error; [|done].
    apply bind_no_reader_error.
    { apply filter_r_no_reader_error. intros f.
      apply bind_no_reader_error; [auto with reader_error|].
      intros []; auto with reader_error. }
    intros cands.
    apply bind_no_reader_error; [apply index0_no_reader_error|intros l].
    apply bind_no_reader_error; [apply attrib_item_no_reader_error|intros href].
    apply bind_no_reader_error; [apply index0_no_reader_error|intros part].
    apply bind_no_reader_error; [|intros t; apply str_add_no_reader_error].
    unfold filename_text. by destruct cands.
  - by apply bind_no_reader_error.
Qed.

End ReaderErrors.

Section Parse.

Variable _css : string -> element -> list element.
Variable _parse_text :
  element -> Refs -> Specials -> element_cls -> text_element.
Variable _make_tree : string -> option element.
Variables clean strip_els_xml : element -> element.
Variable getparent : element -> option element.
Variable _find_table : element -> list table_ref.
Variable _parse_reference : element -> list doc_element.
Variable _parse_table :
  (list element -> Refs -> Specials -> result (list (list text_element))) ->
  table_ref -> Refs -> Specials -> result (list doc_element).
Variable _parse_element : element -> Specials -> Refs -> list doc_element.

Local Abbreviation parse_doc :=
  (parse _css _parse_text _make_tree clean strip_els_xml getparent
     _find_table _parse_reference _parse_table _parse_element).

(** The table assembly of the base reader raises no reader error of
    its own: one can only come from the row reconstruction it calls. *)
Hypothesis parse_table_passes :
  forall rows_of table refs specials,
    (forall els r s, no_reader_error (rows_of els r s)) ->
    no_reader_error (_parse_table rows_of table refs specials).

(** C2, amended.  [parse] raises a reader error exactly when no tree
    can be built from the content; the [raise] after the tree builder
    is the only one in the module. *)
Theorem parse_reader_error_iff fstring :
  parse _css _parse_text _make_tree clean strip_els_xml getparent
    _find_table _parse_reference _parse_table _parse_element fstring
  = Raise ReaderError
  <-> _make_tree fstring = None.
Proof.
  unfold parse. destruct (_make_tree fstring) as [tree|]; [|done].
  split; [|done]. intros H. exfalso. revert H.
  apply bind_no_reader_error; [apply index0_no_reader_error|intros root].
  apply bind_no_reader_error.
  { apply for_each_no_reader_error. intros fig sp. unfold figure_region.
    apply bind_no_reader_error; [apply parse_figure_no_reader_error|done]. }
  intros sp. apply bind_no_reader_error; [|done].
  apply for_each_no_reader_error. intros table sp'. unfold table_region.
  apply bind_no_reader_error.
  { destruct table; [done|apply index0_no_reader_error]. }
  intros tab_id. apply bind_no_reader_error; [|done].
  apply parse_table_passes. apply parse_table_rows_no_reader_error.
Qed.

(** Without the root element in the tree, [parse] fails on item [0]
    of the empty selection. *)
Lemma parse_root_absent fstring tree :
  _make_tree fstring = Some tree -> _css root_css tree = [] ->
  parse_doc fstring = Raise IndexError.
Proof. intros Ht Hr. unfold parse. by rewrite Ht, Hr. Qed.

End Parse.

(** C2 as stated fails: a tree is built, the root element is not in
    it, and what [parse] raises is not a reader error. *)
Lemma parse_root_absent_index_error :
  sample_make_tree "html" "<html/>" = Some (node "html" (Some "<html/>") None [])
  /\ css_select root_css (node "html" (Some "<html/>") None []) = []
  /\ sample_parse "html" "<html/>" = Raise IndexError
  /\ sample_parse "html" "<html/>" <> Raise ReaderError.
Proof. repeat split; [vm_compute; reflexivity..|by vm_compute]. Qed.

(** With the sample base methods: empty content builds no tree, and
    [parse] raises the reader error. *)
Lemma parse_reader_error_iff_witness :
  sample_parse "default:full-text-retrieval-response" "" = Raise ReaderError
  <-> sample_make_tree "default:full-text-retrieval-response" "" = None.
Proof.
  apply (parse_reader_error_iff css_select text_of
           (sample_make_tree "default:full-text-retrieval-response")
           (fun el => el) (fun el => el) (fun _ => None) (fun _ => [])
           (fun _ => []) (fun _ _ _ _ => Ok [])
           (fun _ specials _ => flat_map snd (rev specials))).
  intros rows_of table refs specials _. vm_compute. discriminate.
Defined.

(** ** The reader on concrete tables *)

(** C4 as stated fails on a table without span attributes whose second
    row is shorter than the first: a padding cell is added.  It also
    fails on a table with a row that has no cell: that row is not in
    the output. *)
Lemma no_spans_ragged_padded :
  no_spans css_select ragged_table /\
  raw_layout css_select text_of ragged_table [] [] =
  [[Cell "a"; Cell "b"]; [Cell "c"]] /\
  _parse_table_rows css_select text_of ragged_table [] [] =
  Ok [[Cell "a"; Cell "b"]; [Cell "c"; Cell ""]] /\
  no_spans css_select gap_table /\
  raw_layout css_select text_of gap_table [] [] =
  [[Cell "a"]; []; [Cell "b"]] /\
  _parse_table_rows css_select text_of gap_table [] [] =
  Ok [[Cell "a"]; [Cell "b"]].
Proof.
  split; [repeat constructor|]. do 2 (split; [vm_compute; reflexivity|]).
  split; [repeat constructor|]. split; vm_compute; reflexivity.
Qed.

(** The square table comes back as it is laid out. *)
Lemma no_spans_rows_witness :
  no_spans css_select square_table /\
  _parse_table_rows css_select text_of square_table [] [] =
  Ok [[Cell "a"; Cell "b"]; [Cell "c"; Cell "d"]].
Proof.
  assert (no_spans css_select square_table) as Hno by repeat constructor.
  split; [exact Hno|].
  destruct (no_spans_rows css_select text_of square_table [] [] Hno)
    as [_ Hexact].
  apply (Hexact 2); [lia|]. repeat constructor.
Defined.

(** C5 as stated fails when the row below is short: the cell [c] with
    [morerows="1"] is the third cell of its own returned row and the
    second of the row below, and no column index holds it in both.  It
    also fails for a cell whose column range is reversed: the cell [x]
    is in no returned row. *)
Lemma morerows_one_shifted :
  _parse_table_rows css_select text_of short_row_table [] [] =
  Ok [[Cell "a"; Cell "b"; Cell "c"]; [Cell "d"; Cell "c"; Cell ""]]
  /\
  (forall col,
     [Cell "a"; Cell "b"; Cell "c"] !! col = Some (Cell "c") ->
     [Cell "d"; Cell "c"; Cell ""] !! col <> Some (Cell "c"))
  /\
  _parse_table_rows css_select text_of reversed_span_table [] [] =
  Ok [[Cell "y"]].
Proof.
  split; [vm_compute; reflexivity|]. split; [|vm_compute; reflexivity].
  intros [|[|[|col]]] H; vm_compute in H |- *; congruence.
Qed.

(** In the table with all its cells, the spanning cell [b] is in column
    1 of both grid rows, no column to its left is free, and it stands
    at index 1 of both returned rows. *)
Lemma morerows_one_two_rows_witness :
  _parse_table_rows css_select text_of rowspan_table [] [] =
  Ok [[Cell "a"; Cell "b"]; [Cell "c"; Cell "b"]]
  /\
  exists hdict col d1 d2 i r1 r2,
    table_grid css_select text_of rowspan_table [] [] = Ok hdict /\
    hdict !! 0 = Some d1 /\ hdict !! 1 = Some d2 /\
    d1 !! col = Some (Cell "b") /\ d2 !! col = Some (Cell "b") /\
    r1 = pad_to (max_width (grid_rows hdict)) (row_cells d1) /\
    r2 = pad_to (max_width (grid_rows hdict)) (row_cells d2) /\
    [[Cell "a"; Cell "b"]; [Cell "c"; Cell "b"]] !! i = Some r1 /\
    [[Cell "a"; Cell "b"]; [Cell "c"; Cell "b"]] !! S i = Some r2 /\
    Cell "b" ∈ r1 /\ Cell "b" ∈ r2 /\
    ((forall c, c < col -> is_Some (d1 !! c) /\ is_Some (d2 !! c)) ->
     r1 !! col = Some (Cell "b") /\ r2 !! col = Some (Cell "b")).
Proof.
  assert (_parse_table_rows css_select text_of rowspan_table [] [] =
          Ok [[Cell "a"; Cell "b"]; [Cell "c"; Cell "b"]]) as H
      by (vm_compute; reflexivity).
  split; [exact H|].
  apply (morerows_one_two_rows css_select text_of rowspan_table [] []
           _ 0 (table_row_of [entry ∅ "a"; entry {[ "morerows" := "1" ]} "b"])
           1 (entry {[ "morerows" := "1" ]} "b") 1%Z 1%Z H).
  - reflexivity.
  - vm_compute; reflexivity.
  - vm_compute; reflexivity.
  - vm_compute; reflexivity.
  - vm_compute; reflexivity.
  - lia.
Defined.


(** ** The whitespace collapse *)

Lemma clear_space_not_blank t : blank (clear_space t) = false.
Proof.
  destruct t as [s|]; [|done]. simpl.
  destruct (Py.isspace s) eqn:E; [done|]. simpl. exact E.
Qed.

Lemma clear_space_fixed t : blank t = false -> clear_space t = t.
Proof. destruct t as [s|]; [|done]. simpl. by intros ->. Qed.

Lemma forallb_map_true {A B : Type} (f : A -> B) (p : B -> bool) (l : list A) :
  Forall (fun x => p (f x) = true) l -> forallb p (map f l) = true.
Proof.
  induction 1 as [|x l Hx _ IH]; simpl; [done|]. by rewrite Hx, IH.
Qed.

Lemma map_fixed {A : Type} (f : A -> A) (l : list A) :
  Forall (fun x => f x = x) l -> map f l = l.
Proof. induction 1 as [|x l Hx _ IH]; simpl; [done|]. by rewrite Hx, IH. Qed.

Lemma collapse_no_blank document :
  no_blank (els_xml_whitespace document) = true.
Proof.
  induction document as [tg at_ tx tl kids IH] using element_tree_ind.
  cbn [els_xml_whitespace no_blank].
  rewrite !clear_space_not_blank. simpl.
  by apply forallb_map_true.
Qed.

(** X1.  After the collapse no text and no tail of the tree is a run of
    whitespace. *)
Theorem els_xml_whitespace_no_blank document :
  no_blank (els_xml_whitespace document) = true.
Proof. apply collapse_no_blank. Qed.

Lemma collapse_fixed_point document :
  no_blank document = true -> els_xml_whitespace document = document.
Proof.
  induction document as [tg at_ tx tl kids IH] using element_tree_ind.
  cbn [els_xml_whitespace no_blank]. intros H.
  apply andb_true_iff in H as [H Hkids].
  apply andb_true_iff in H as [Htx Htl].
  apply negb_true_iff in Htx, Htl.
  rewrite !clear_space_fixed by done. f_equal.
  apply map_fixed. rewrite Forall_forall in IH |- *.
  intros k Hk. apply IH; [done|].
  rewrite forallb_forall in Hkids. by apply Hkids, list_elem_of_In.
Qed.

(** X2.  A tree without blank text or tail comes out of the collapse as it
    went in. *)
Theorem els_xml_whitespace_unchanged document :
  no_blank document = true -> els_xml_whitespace document = document.
Proof. apply collapse_fixed_point. Qed.

(** X3.  Collapsing twice is collapsing once. *)
Theorem els_xml_whitespace_idempotent document :
  els_xml_whitespace (els_xml_whitespace document) =
  els_xml_whitespace document.
Proof.
  apply collapse_fixed_point, collapse_no_blank.
Qed.

(** X4.  The collapse touches texts and tails only: tags, attributes and the
    arrangement of the nodes stay, a text that is [None] stays [None],
    and a text that is changed becomes the empty string. *)
Theorem els_xml_whitespace_shape document :
  shape (els_xml_whitespace document) = shape document /\
  (text document = None -> text (els_xml_whitespace document) = None) /\
  (text (els_xml_whitespace document) = text document \/
   text (els_xml_whitespace document) = Some "").
Proof.
  split; [|split].
  - induction document as [tg at_ tx tl kids IH] using element_tree_ind.
    cbn [els_xml_whitespace shape]. f_equal.
    rewrite map_map. apply map_ext_Forall. exact IH.
  - destruct document as [tg at_ tx tl kids]. simpl. by intros ->.
  - destruct document as [tg at_ [s|] tl kids]; simpl; [|by left].
    destruct (Py.isspace s); [by right|by left].
Qed.

Lemma els_xml_whitespace_unchanged_witness :
  no_blank (node "ce:para" (Some "a b") (Some "") [node "ce:bold" None None []])
  = true /\
  els_xml_whitespace
    (node "ce:para" (Some "a b") (Some "") [node "ce:bold" None None []]) =
  node "ce:para" (Some "a b") (Some "") [node "ce:bold" None None []].
Proof.
  split; [reflexivity|].
  apply (els_xml_whitespace_unchanged
           (node "ce:para" (Some "a b") (Some "") [node "ce:bold" None None []])).
  reflexivity.
Defined.

(** ** The splice pass on a whole tree *)

Lemma splice_el_spliced extra tg at_ tx tl kids st :
  is_splice tg = true ->
  splice_el extra (Element tg at_ tx tl kids) st =
  match kids with
  | [] => merge_tail (with_extra tl extra) (merge_text tx st)
  | _ :: _ => splice_last (with_extra tl extra) kids (merge_text tx st)
  end.
Proof.
  intros Htg. cbn [splice_el]. rewrite Htg.
  set (go := fix go (ks : list element) (st0 : left_context) {struct ks} :=
         match ks with
         | [] => st0
         | [k] => splice_el (with_extra tl extra) k st0
         | k :: ks' => go ks' (splice_el None k st0)
         end).
  assert (forall ks s, go ks s = splice_last (with_extra tl extra) ks s) as Hgo.
  { induction ks as [|k ks IHks]; intros s; [done|].
    destruct ks as [|k' ks]; [done|].
    change (go (k' :: ks) (splice_el None k s) =
            splice_last (with_extra tl extra) (k' :: ks) (splice_el None k s)).
    apply IHks. }
  destruct kids as [|k0 kids0]; [done|]. apply Hgo.
Qed.

Lemma merge_text_nodes (P : element -> Prop) tx st :
  same_nodes P -> Forall P st.2 -> Forall P (merge_text tx st).2.
Proof.
  intros HP Hst. destruct st as [pt prevs]. unfold merge_text.
  destruct (Py.truthy tx); [|done].
  destruct prevs as [|p before]; [by repeat case_match|].
  apply Forall_cons in Hst as [Hp Hb].
  repeat case_match; cbn [snd]; try (by constructor);
    constructor; auto.
Qed.

Lemma merge_tail_nodes (P : element -> Prop) tl st :
  same_nodes P -> Forall P st.2 -> Forall P (merge_tail tl st).2.
Proof.
  intros HP Hst. destruct st as [pt prevs]. unfold merge_tail.
  destruct (Py.truthy tl); [|done].
  destruct prevs as [|p before]; [by repeat case_match|].
  apply Forall_cons in Hst as [Hp Hb].
  repeat case_match; cbn [snd]; constructor; auto.
Qed.

Lemma hsp_free_same_nodes : same_nodes (fun el => hsp_free el = true).
Proof. by intros [tg at_ tx tl kids] t. Qed.

Lemma splice_last_nodes (P : element -> Prop) tl ks st :
  Forall (fun k => forall extra st,
            Forall P st.2 -> Forall P (splice_el extra k st).2) ks ->
  Forall P st.2 -> Forall P (splice_last tl ks st).2.
Proof.
  intros IH. revert st. induction IH as [|k ks Hk _ IHks]; intros st Hst; [done|].
  destruct ks as [|k' ks]; [by apply Hk|].
  change (Forall P (splice_last tl (k' :: ks) (splice_el None k st)).2).
  apply IHks. by apply Hk.
Qed.

Lemma splice_children_nodes (P : element -> Prop) ks st :
  Forall (fun k => forall extra st,
            Forall P st.2 -> Forall P (splice_el extra k st).2) ks ->
  Forall P st.2 -> Forall P (splice_children ks st).2.
Proof.
  unfold splice_children. intros IH. revert st.
  induction IH as [|k ks Hk _ IHks]; intros st Hst; [done|].
  cbn [fold_left]. apply IHks. by apply Hk.
Qed.

Lemma forallb_Forall_true {A : Type} (p : A -> bool) (l : list A) :
  forallb p l = true <-> Forall (fun x => p x = true) l.
Proof.
  induction l as [|x l IH]; simpl; [by split; [constructor|]|].
  rewrite andb_true_iff, Forall_cons, IH. done.
Qed.

Lemma splice_el_no_hsp el extra st :
  Forall (fun k => hsp_free k = true) st.2 ->
  Forall (fun k => hsp_free k = true) (splice_el extra el st).2.
Proof.
  revert extra st.
  induction el as [tg at_ tx tl kids IH] using element_tree_ind.
  intros extra st Hst. destruct (is_splice tg) eqn:Htg.
  - rewrite splice_el_spliced by done. destruct kids as [|k0 kids0].
    + apply merge_tail_nodes; [apply hsp_free_same_nodes|].
      by apply merge_text_nodes; [apply hsp_free_same_nodes|].
    + apply splice_last_nodes; [done|].
      by apply merge_text_nodes; [apply hsp_free_same_nodes|].
  - rewrite splice_el_kept by done. cbn [snd].
    constructor; [|done]. cbn [hsp_free]. rewrite Htg. cbn [negb andb].
    apply forallb_Forall_true, Forall_rev.
    apply splice_children_nodes; [done|]. constructor.
Qed.

Lemma fix_children_hsp_free document :
  forallb hsp_free (children (fix_elsevier_xml_whitespace document)) = true.
Proof.
  unfold fix_elsevier_xml_whitespace. cbn [children].
  apply forallb_Forall_true, Forall_rev, splice_children_nodes; [|constructor].
  apply Forall_forall. intros k _ extra st. apply splice_el_no_hsp.
Qed.

Lemma fix_hsp_free_unchanged document :
  forallb hsp_free (children document) = true ->
  fix_elsevier_xml_whitespace document = document.
Proof.
  intros H. unfold fix_elsevier_xml_whitespace.
  rewrite splice_children_hsp_free by done. cbn [fst snd].
  rewrite app_nil_r, List.rev_involutive. by destruct document.
Qed.

(** X5.  After the pass no splice node is left below the document. *)
Theorem fix_whitespace_removes_hsp document :
  forallb hsp_free (children (fix_elsevier_xml_whitespace document)) = true.
Proof. apply fix_children_hsp_free. Qed.

(** X6.  A document without a splice node below it comes out of the pass as
    it went in. *)
Theorem fix_whitespace_unchanged document :
  forallb hsp_free (children document) = true ->
  fix_elsevier_xml_whitespace document = document.
Proof. apply fix_hsp_free_unchanged. Qed.

Lemma fix_whitespace_unchanged_witness :
  forallb hsp_free
    (children (node "ce:para" (Some "a") None [node "ce:bold" (Some "b") (Some "c") []]))
  = true /\
  fix_elsevier_xml_whitespace
    (node "ce:para" (Some "a") None [node "ce:bold" (Some "b") (Some "c") []]) =
  node "ce:para" (Some "a") None [node "ce:bold" (Some "b") (Some "c") []].
Proof.
  split; [reflexivity|].
  apply (fix_whitespace_unchanged
    (node "ce:para" (Some "a") None [node "ce:bold" (Some "b") (Some "c") []])).
  reflexivity.
Defined.

(** X7.  Running the pass twice is running it once. *)
Theorem fix_whitespace_idempotent document :
  fix_elsevier_xml_whitespace (fix_elsevier_xml_whitespace document) =
  fix_elsevier_xml_whitespace document.
Proof. apply fix_hsp_free_unchanged, fix_children_hsp_free. Qed.

(** The nodes that are kept. *)

Lemma kept_nodes_set_tail el t : kept_nodes (set_tail el t) = kept_nodes el.
Proof. by destruct el. Qed.

Lemma kept_of_cons p before :
  kept_of (p :: before) = kept_of before ++ kept_nodes p.
Proof.
  unfold kept_of. cbn [rev]. rewrite flat_map_app. simpl. by rewrite app_nil_r.
Qed.

Lemma merge_text_kept tx st : kept_of (merge_text tx st).2 = kept_of st.2.
Proof.
  destruct st as [pt prevs]. unfold merge_text.
  destruct (Py.truthy tx); [|done].
  destruct prevs as [|p before]; [by repeat case_match|].
  repeat case_match; cbn [snd]; rewrite ?kept_of_cons, ?kept_nodes_set_tail; done.
Qed.

Lemma merge_tail_kept tl st : kept_of (merge_tail tl st).2 = kept_of st.2.
Proof.
  destruct st as [pt prevs]. unfold merge_tail.
  destruct (Py.truthy tl); [|done].
  destruct prevs as [|p before]; [by repeat case_match|].
  repeat case_match; cbn [snd]; rewrite ?kept_of_cons, ?kept_nodes_set_tail; done.
Qed.

Lemma splice_last_kept tl ks st :
  Forall (fun k => forall extra st,
            kept_of (splice_el extra k st).2 = kept_of st.2 ++ kept_nodes k) ks ->
  kept_of (splice_last tl ks st).2 = kept_of st.2 ++ flat_map kept_nodes ks.
Proof.
  intros IH. revert st.
  induction IH as [|k ks Hk _ IHks]; intros st; [by rewrite app_nil_r|].
  destruct ks as [|k' ks].
  - cbn [splice_last]. rewrite Hk. simpl. by rewrite app_nil_r.
  - change (kept_of (splice_last tl (k' :: ks) (splice_el None k st)).2 =
            kept_of st.2 ++ flat_map kept_nodes (k :: k' :: ks)).
    rewrite IHks, Hk. cbn [flat_map]. by rewrite <- app_assoc.
Qed.

Lemma splice_children_kept ks st :
  Forall (fun k => forall extra st,
            kept_of (splice_el extra k st).2 = kept_of st.2 ++ kept_nodes k) ks ->
  kept_of (splice_children ks st).2 = kept_of st.2 ++ flat_map kept_nodes ks.
Proof.
  unfold splice_children. intros IH. revert st.
  induction IH as [|k ks Hk _ IHks]; intros st; [by rewrite app_nil_r|].
  cbn [fold_left flat_map]. rewrite IHks, Hk. by rewrite <- app_assoc.
Qed.

Lemma splice_el_kept_nodes el extra st :
  kept_of (splice_el extra el st).2 = kept_of st.2 ++ kept_nodes el.
Proof.
  revert extra st.
  induction el as [tg at_ tx tl kids IH] using element_tree_ind.
  intros extra st. destruct (is_splice tg) eqn:Htg.
  - rewrite splice_el_spliced by done. cbn [kept_nodes]. rewrite Htg.
    cbn [app]. destruct kids as [|k0 kids0].
    + rewrite merge_tail_kept, merge_text_kept. simpl. by rewrite app_nil_r.
    + rewrite splice_last_kept by done. by rewrite merge_text_kept.
  - rewrite splice_el_kept by done. cbn [snd]. rewrite kept_of_cons.
    f_equal. cbn [kept_nodes]. rewrite Htg. cbn [app]. f_equal.
    change (kept_of (splice_children kids (tx, [])).2 = flat_map kept_nodes kids).
    by rewrite splice_children_kept.
Qed.

(** X8.  The pass drops the splice nodes and no other node: the nodes below
    the document that are no splice nodes are the same before and
    after, in the same document order. *)
Theorem fix_whitespace_keeps_nodes document :
  flat_map kept_nodes (children (fix_elsevier_xml_whitespace document)) =
  flat_map kept_nodes (children document) /\
  tag (fix_elsevier_xml_whitespace document) = tag document /\
  attrib (fix_elsevier_xml_whitespace document) = attrib document /\
  tail (fix_elsevier_xml_whitespace document) = tail document.
Proof.
  split; [|done].
  unfold fix_elsevier_xml_whitespace. cbn [children].
  change (kept_of (splice_children (children document) (text document, [])).2 =
          flat_map kept_nodes (children document)).
  rewrite splice_children_kept; [done|].
  apply Forall_forall. intros k _ extra st. apply splice_el_kept_nodes.
Qed.

(** ** The text of a splice node *)



(** ** The cleaners together *)

Lemma els_xml_whitespace_hsp_free el :
  hsp_free (els_xml_whitespace el) = hsp_free el.
Proof.
  induction el as [tg at_ tx tl kids IH] using element_tree_ind.
  cbn [els_xml_whitespace hsp_free]. f_equal.
  induction IH as [|k ks Hk _ IHks]; [done|].
  cbn [map forallb]. by rewrite Hk, IHks.
Qed.

(** X10.  The cleaners run in the order of the list.  After the two
    whitespace passes, before the last cleaner, no splice node is left
    below the root and no text or tail of the tree is a run of
    whitespace. *)
Theorem cleaners_whitespace (clean strip_els_xml : element -> element) root :
  let cleaned := els_xml_whitespace (fix_elsevier_xml_whitespace (clean root)) in
  run_cleaners clean strip_els_xml root = strip_els_xml cleaned /\
  forallb hsp_free (children cleaned) = true /\
  no_blank cleaned = true.
Proof.
  cbv zeta. split; [reflexivity|]. split.
  - set (d := fix_elsevier_xml_whitespace (clean root)).
    assert (forallb hsp_free (children d) = true) as Hd
        by apply fix_children_hsp_free.
    destruct d as [tg at_ tx tl kids]. cbn [els_xml_whitespace children] in *.
    apply forallb_Forall_true. apply forallb_Forall_true in Hd.
    apply Forall_fmap. eapply Forall_impl; [exact Hd|].
    intros k Hk. cbn. by rewrite els_xml_whitespace_hsp_free.
  - apply collapse_no_blank.
Qed.

(** ** The table reconstruction: when it returns, and what *)

Lemma for_each_Ok_all {A S : Type} (body : A -> S -> result S) xs s r :
  for_each body xs s = Ok r ->
  forall x, x ∈ xs -> exists s0 s1, body x s0 = Ok s1.
Proof.
  revert s. induction xs as [|y xs IH]; intros s H x Hx.
  - by apply elem_of_nil in Hx.
  - cbn [for_each] in H. destruct (body y s) as [s'|] eqn:E; [|done].
    apply elem_of_cons in Hx as [->|Hx]; [by eauto|by eapply IH].
Qed.

Lemma for_each_Raise {A S : Type} (body : A -> S -> result S) xs s e :
  for_each body xs s = Raise e ->
  exists x s0, x ∈ xs /\ body x s0 = Raise e.
Proof.
  revert s. induction xs as [|y xs IH]; intros s H; [done|].
  cbn [for_each] in H. destruct (body y s) as [s'|e'] eqn:E.
  - destruct (IH _ H) as (x & s0 & Hx & Hb). exists x, s0.
    split; [by apply elem_of_cons; right|done].
  - simplify_eq. exists y, s. split; [apply elem_of_cons; by left|done].
Qed.

Lemma enumerate_elem {A : Type} (xs : list A) i x :
  (i, x) ∈ enumerate xs <-> xs !! i = Some x.
Proof.
  unfold enumerate. rewrite list_elem_of_lookup. split.
  - intros [k Hk]. apply lookup_zip_with_Some in Hk as (a & b & [= -> ->] & Ha & Hb).
    apply lookup_seq in Ha as [-> _]. done.
  - intros Hx. exists i. apply lookup_zip_with_Some. exists i, x.
    split; [done|]. split; [|done]. apply lookup_seq.
    split; [done|]. by eapply lookup_lt_Some.
Qed.

Lemma parse_colname_raises td name e :
  parse_colname td name = Raise e -> e = IndexError \/ e = ValueError.
Proof.
  unfold parse_colname.
  destruct (filter _ _) as [|part parts]; cbn; [intros [= <-]; by left|].
  unfold Py.int. case_match; [done|]. intros [= <-]. by right.
Qed.

Lemma cell_span_raises td e :
  cell_span td = Raise e -> e = IndexError \/ e = ValueError.
Proof.
  unfold cell_span.
  destruct (parse_colname td "namest") as [a|e1] eqn:E1; cbn;
    [|intros [= <-]; by eapply parse_colname_raises].
  destruct (parse_colname td "nameend") as [b|e2] eqn:E2; cbn;
    [|intros [= <-]; by eapply parse_colname_raises].
  unfold Py.int. case_match; [done|]. cbn. intros [= <-]. by right.
Qed.

Section TableResults.

Variable _css : string -> element -> list element.
Variable _parse_text :
  element -> Refs -> Specials -> element_cls -> text_element.

Lemma table_cell_Raise refs specials row td st e :
  table_cell _parse_text refs specials row td st = Raise e ->
  cell_span td = Raise e.
Proof.
  unfold table_cell. destruct (cell_span td) as [[colspan rowspan]|e']; [done|].
  cbn. congruence.
Qed.

Lemma table_grid_Raise els refs specials e :
  table_grid _css _parse_text els refs specials = Raise e ->
  exists tr td, tr ∈ els /\ td ∈ _css table_cell_css tr /\
                cell_span td = Raise e.
Proof.
  unfold table_grid. intros ([row tr] & hdict & Hin & Hb)%for_each_Raise.
  apply enumerate_elem in Hin. unfold table_row in Hb.
  destruct (for_each _ _ (hdict, 0)) as [st|e'] eqn:E; [done|].
  cbn in Hb. simplify_eq.
  apply for_each_Raise in E as (td & st & Htd & Hc).
  exists tr, td. split; [by eapply list_elem_of_lookup_2|]. split; [done|].
  by eapply table_cell_Raise.
Qed.

(** X11.  The reconstruction returns exactly when the span attributes of
    every cell of the table can be read. *)
Theorem parse_table_rows_returns_iff els refs specials :
  (exists rows, _parse_table_rows _css _parse_text els refs specials = Ok rows)
  <->
  (forall tr td, tr ∈ els -> td ∈ _css table_cell_css tr ->
     exists span, cell_span td = Ok span).
Proof.
  split.
  - intros [rows (hdict & Hg & _)%parse_table_rows_Ok] tr td Htr Htd.
    apply list_elem_of_lookup in Htr as [row Hrow].
    unfold table_grid in Hg.
    destruct (for_each_Ok_all _ _ _ _ Hg (row, tr)) as (h0 & h1 & Hr);
      [by apply enumerate_elem|].
    apply table_row_Ok in Hr as [colnum Hr].
    destruct (for_each_Ok_all _ _ _ _ Hr td Htd) as (s0 & s1 & Hc).
    apply table_cell_Ok in Hc as (colspan & rowspan & Hspan & _).
    by eexists.
  - apply parse_table_rows_returns.
Qed.

(** X12.  When the reconstruction raises, it raises what reading the span
    attributes of one of the cells raises: [IndexError] for a column
    name without a part beside [col], [ValueError] for an attribute
    that is no number. *)
Theorem parse_table_rows_raises els refs specials e :
  _parse_table_rows _css _parse_text els refs specials = Raise e ->
  (e = IndexError \/ e = ValueError) /\
  exists tr td, tr ∈ els /\ td ∈ _css table_cell_css tr /\
                cell_span td = Raise e.
Proof.
  unfold _parse_table_rows. intros H.
  destruct (table_grid _ _ els refs specials) as [hdict|e'] eqn:E; [done|].
  cbn in H. simplify_eq.
  apply table_grid_Raise in E as (tr & td & Htr & Htd & Hspan).
  split; [by eapply cell_span_raises|]. by exists tr, td.
Qed.

Local Abbreviation sourced := (from_cells _css _parse_text).

Lemma place_cells cell row st j r c v :
  cell_at (place cell row st j).1 r c = Some v ->
  v = cell \/ cell_at st.1 r c = Some v.
Proof.
  destruct st as [hdict colnum].
  destruct (place cell row (hdict, colnum) j) as [hd' c'] eqn:E.
  apply place_spec in E as [_ Hat]. cbn [fst]. rewrite Hat.
  case_decide; [intros [= <-]; by left|by right].
Qed.

Lemma fold_left_cells {A : Type} (f : grid * nat -> A -> grid * nat) cell xs :
  (forall st x r c v, cell_at (f st x).1 r c = Some v ->
     v = cell \/ cell_at st.1 r c = Some v) ->
  forall st r c v, cell_at (fold_left f xs st).1 r c = Some v ->
    v = cell \/ cell_at st.1 r c = Some v.
Proof.
  intros Hf. induction xs as [|x xs IH]; intros st r c v H; [by right|].
  cbn [fold_left] in H. apply IH in H as [->|H]; [by left|by eapply Hf].
Qed.

Lemma span_loops_cells cell row colspan rowspan st r c v :
  cell_at (span_loops cell row colspan rowspan st).1 r c = Some v ->
  v = cell \/ cell_at st.1 r c = Some v.
Proof.
  unfold span_loops. apply fold_left_cells. clear. intros st i r c v.
  unfold span_step.
  destruct (fold_left (place cell row) (range rowspan) st) as [hd c1] eqn:E.
  cbn [fst]. intros H.
  apply (fold_left_cells (place cell row) cell (range rowspan)
           (place_cells cell row) st r c v).
  by rewrite E.
Qed.

Lemma table_grid_sourced els refs specials hdict :
  table_grid _css _parse_text els refs specials = Ok hdict ->
  sourced els refs specials hdict.
Proof.
  unfold table_grid.
  apply (for_each_invariant (sourced els refs specials)); [|done].
  intros [row tr] h h' Hin%enumerate_elem Hh [colnum Hr]%table_row_Ok.
  apply list_elem_of_lookup_2 in Hin.
  change h' with (h', colnum).1.
  revert Hr.
  apply (for_each_invariant (fun st => sourced els refs specials st.1));
    [|done].
  intros td st st' Htd Hst (colspan & rowspan & _ & ->)%table_cell_Ok r c v Hv.
  apply span_loops_cells in Hv as [->|Hv]; [by exists tr, td|by apply (Hst r c)].
Qed.

Lemma row_cells_from (d : gmap nat text_element) v :
  v ∈ row_cells d -> exists col, d !! col = Some v.
Proof.
  unfold row_cells. intros (col & -> & Hcol)%list_elem_of_fmap.
  apply sorted_keys_elem in Hcol as [w Hw]. exists col.
  by rewrite (lookup_total_correct _ _ _ Hw).
Qed.

Lemma grid_rows_from (hdict : grid) r v :
  r ∈ grid_rows hdict -> v ∈ r -> exists row col, cell_at hdict row col = Some v.
Proof.
  unfold grid_rows. intros (row & -> & Hrow)%list_elem_of_fmap Hv.
  apply sorted_keys_elem in Hrow as [d Hd].
  rewrite (lookup_total_correct _ _ _ Hd) in Hv.
  apply row_cells_from in Hv as [col Hcol]. exists row, col.
  apply cell_at_Some. by exists d.
Qed.

Lemma finish_rows_from (hdict : grid) r v :
  r ∈ finish_rows hdict -> v ∈ r ->
  v = Cell "" \/ exists row col, cell_at hdict row col = Some v.
Proof.
  rewrite finish_rows_eq. intros [_ Hr]%list_elem_of_filter Hv.
  apply list_elem_of_fmap in Hr as (r0 & -> & Hr0).
  unfold pad_to in Hv. apply elem_of_app in Hv as [Hv|Hv].
  - right. by eapply grid_rows_from.
  - left. by apply elem_of_replicate in Hv as [-> _].
Qed.

(** X13.  Every cell of a returned row is the conversion of a cell of the
    table or an empty cell of the padding: the reconstruction invents
    no content. *)
Theorem parse_table_rows_cells els refs specials rows r v :
  _parse_table_rows _css _parse_text els refs specials = Ok rows ->
  r ∈ rows -> v ∈ r ->
  v = Cell "" \/
  exists tr td, tr ∈ els /\ td ∈ _css table_cell_css tr /\
                v = _parse_text td refs specials ClsCell.
Proof.
  intros (hdict & Hg & ->)%parse_table_rows_Ok Hr Hv.
  destruct (finish_rows_from _ _ _ Hr Hv) as [->|(row & col & Hat)];
    [by left|right].
  exact (table_grid_sourced _ _ _ _ Hg row col v Hat).
Qed.

End TableResults.

Lemma parse_table_rows_raises_witness :
  _parse_table_rows css_select text_of bad_span_table [] [] = Raise ValueError /\
  (ValueError = IndexError \/ ValueError = ValueError) /\
  exists tr td, tr ∈ bad_span_table /\ td ∈ css_select table_cell_css tr /\
                cell_span td = Raise ValueError.
Proof.
  split; [vm_compute; reflexivity|].
  apply (parse_table_rows_raises css_select text_of bad_span_table [] []).
  vm_compute. reflexivity.
Defined.

Lemma parse_table_rows_cells_witness :
  _parse_table_rows css_select text_of ragged_table [] [] =
    Ok [[Cell "a"; Cell "b"]; [Cell "c"; Cell ""]] /\
  (Cell "" = Cell "" \/
   exists tr td, tr ∈ ragged_table /\ td ∈ css_select table_cell_css tr /\
                 Cell "" = text_of td [] [] ClsCell).
Proof.
  split; [vm_compute; reflexivity|].
  apply (parse_table_rows_cells css_select text_of ragged_table [] []
           [[Cell "a"; Cell "b"]; [Cell "c"; Cell ""]] [Cell "c"; Cell ""]).
  - vm_compute. reflexivity.
  - apply elem_of_cons. right. apply elem_of_cons. by left.
  - apply elem_of_cons. right. apply elem_of_cons. by left.
Defined.

(** ** Spans *)

(** X15.  The search for a column stops at the first free column at or after
    the one it starts from; the columns it passes are occupied. *)
Theorem column_search_first_free (d : gmap nat text_element) colnum :
  colnum <= skip_occupied d colnum /\
  d !! skip_occupied d colnum = None /\
  forall x, colnum <= x < skip_occupied d colnum -> is_Some (d !! x).
Proof. apply skip_occupied_free. Qed.

Lemma span_steps_keep cell row rowspan xs st :
  staircase row st.1 ->
  staircase row (fold_left (span_step cell row rowspan) xs st).1 /\
  grid_le st.1 (fold_left (span_step cell row rowspan) xs st).1.
Proof.
  apply (fold_left_keeps (fun st => staircase row st.1)
           (fun st st' => grid_le st.1 st'.1)).
  - intros s. apply grid_le_refl.
  - intros a b c. apply grid_le_trans.
  - intros s i Hs. by eapply span_step_keeps.
Qed.

(** The columns a cell takes: one for each step of the outer loop, all
    different, and in each of them the cell stands in all its rows. *)
Lemma span_steps_block cell row rowspan xs hdict colnum :
  staircase row hdict -> 0 < Z.to_nat rowspan ->
  exists cols,
    length cols = length xs /\ NoDup cols /\
    (forall col, col ∈ cols -> colnum <= col) /\
    forall col j, col ∈ cols -> j < Z.to_nat rowspan ->
      cell_at (fold_left (span_step cell row rowspan) xs (hdict, colnum)).1
        (row + j) col = Some cell.
Proof.
  intros Hs Hn. revert hdict colnum Hs.
  induction xs as [|x xs IH]; intros hdict colnum Hs.
  { exists []. split; [done|]. split; [constructor|].
    split; [intros col Hc|intros col j Hc]; by apply elem_of_nil in Hc. }
  cbn [fold_left].
  destruct (span_step cell row rowspan (hdict, colnum) x) as [hd1 c1] eqn:E.
  pose proof (span_step_keeps cell row rowspan (hdict, colnum) x _ Hs E)
    as [Hs1 _].
  cbn [fst] in Hs1. unfold span_step, range in E.
  destruct (fold_left (place cell row) (seq 0 (Z.to_nat rowspan)) (hdict, colnum))
    as [hd0 c0] eqn:E0.
  injection E as <- <-.
  destruct (rowspan_loop _ _ _ _ _ _ _ Hs E0)
    as [(Hz & _)|(_ & Hc0 & _ & Hat)]; [lia|].
  assert (colnum <= c0) as Hle.
  { rewrite Hc0. apply skip_occupied_free. }
  destruct (IH hd0 (S c0) Hs1) as (cols & Hlen & Hnd & Hge & Hcells).
  exists (c0 :: cols). split; [simpl; by rewrite Hlen|]. split.
  { constructor; [|done]. intros Hin%Hge. lia. }
  split.
  { intros col [->|Hin%Hge]%elem_of_cons; lia. }
  intros col j [->|Hin]%elem_of_cons Hj; [|by apply Hcells].
  destruct (span_steps_keep cell row rowspan xs (hd0, S c0) Hs1) as [_ Hkeep].
  apply Hkeep. cbn [fst]. rewrite Hat. rewrite decide_True; [done|lia].
Qed.

Lemma span_loops_block cell row colspan rowspan hdict colnum :
  staircase row hdict -> (0 < rowspan)%Z ->
  exists cols,
    length cols = Z.to_nat colspan /\ NoDup cols /\
    forall col j, col ∈ cols -> j < Z.to_nat rowspan ->
      cell_at (span_loops cell row colspan rowspan (hdict, colnum)).1
        (row + j) col = Some cell.
Proof.
  intros Hs Hr. unfold span_loops, range.
  destruct (span_steps_block cell row rowspan (seq 0 (Z.to_nat colspan))
              hdict colnum Hs) as (cols & Hlen & Hnd & _ & Hcells); [lia|].
  exists cols. rewrite length_seq in Hlen. done.
Qed.

Lemma grid_rows_elem (hdict : grid) row d :
  hdict !! row = Some d -> row_cells d ∈ grid_rows hdict.
Proof.
  intros Hd. unfold grid_rows. apply list_elem_of_fmap. exists row.
  split; [by rewrite (lookup_total_correct _ _ _ Hd)|].
  apply sorted_keys_elem. by eexists.
Qed.

Section Spans.

Variable _css : string -> element -> list element.
Variable _parse_text :
  element -> Refs -> Specials -> element_cls -> text_element.

(** X16.  A cell whose span is [colspan] columns by [rowspan] rows, both
    positive, stands in the grid in [colspan] different columns, the
    same ones in its own row and in each of the [rowspan - 1] rows
    below.  When its content is not empty, each of these grid rows,
    padded, is among the returned rows. *)
Theorem span_cell_block els refs specials rows row tr k td colspan rowspan :
  _parse_table_rows _css _parse_text els refs specials = Ok rows ->
  els !! row = Some tr ->
  _css table_cell_css tr !! k = Some td ->
  cell_span td = Ok (colspan, rowspan) ->
  (0 < colspan)%Z -> (0 < rowspan)%Z ->
  let cell := _parse_text td refs specials ClsCell in
  exists hdict cols,
    table_grid _css _parse_text els refs specials = Ok hdict /\
    length cols = Z.to_nat colspan /\ NoDup cols /\
    forall j, j < Z.to_nat rowspan ->
      exists d,
        hdict !! (row + j) = Some d /\
        (forall col, col ∈ cols -> d !! col = Some cell) /\
        (content cell <> "" ->
         pad_to (max_width (grid_rows hdict)) (row_cells d) ∈ rows).
Proof.
  intros (hdict & Hg & ->)%parse_table_rows_Ok Htr Htd Hspan Hc Hr cell.
  destruct (table_grid_at_cell _ _ _ _ _ _ _ _ _ _ Hg Htr Htd)
    as ([hd0 c0] & st' & Hs & Hcell & Hkeep).
  apply table_cell_Ok in Hcell as (colspan' & rowspan' & Hspan' & ->).
  rewrite Hspan in Hspan'. injection Hspan' as <- <-.
  destruct (span_loops_block cell row colspan rowspan hd0 c0 Hs Hr)
    as (cols & Hlen & Hnd & Hcells).
  exists hdict, cols. do 3 (split; [done|]). intros j Hj.
  destruct cols as [|col0 cols0]; [simpl in Hlen; lia|].
  assert (cell_at hdict (row + j) col0 = Some cell) as H0.
  { apply Hkeep, Hcells; [apply elem_of_cons; by left|done]. }
  apply cell_at_Some in H0 as (d & Hd & H0). exists d. split; [done|]. split.
  - intros col Hcol. specialize (Hkeep _ _ _ (Hcells col j Hcol Hj)).
    apply cell_at_Some in Hkeep as (d' & Hd' & Hv). congruence.
  - intros Hne. rewrite finish_rows_eq. apply list_elem_of_filter. split.
    + apply any_true_iff, pad_to_nonempty. intros Hnil.
      pose proof (row_cells_elem d col0 cell H0) as Hin.
      rewrite Hnil in Hin. by apply elem_of_nil in Hin.
    + apply list_elem_of_fmap. exists (row_cells d). split; [done|].
      by apply (grid_rows_elem hdict (row + j)).
Qed.

(** X17.  A cell whose column range is reversed leaves no trace: the grid
    and the column counter stay as they are.  A cell whose row span is
    not positive is not stored either, but the column counter moves on
    by its column span. *)
Theorem span_not_positive refs specials row td st colspan rowspan :
  cell_span td = Ok (colspan, rowspan) ->
  ((colspan <= 0)%Z ->
   table_cell _parse_text refs specials row td st = Ok st) /\
  ((rowspan <= 0)%Z ->
   table_cell _parse_text refs specials row td st =
   Ok (st.1, st.2 + Z.to_nat colspan)).
Proof.
  intros Hspan. unfold table_cell. rewrite Hspan. cbn [mbind result_bind].
  unfold span_loops, range. split.
  - intros Hc. assert (Z.to_nat colspan = 0) as -> by lia. done.
  - intros Hr. f_equal.
    assert (Z.to_nat rowspan = 0) as Hz by lia.
    assert (forall xs st,
              fold_left (span_step (_parse_text td refs specials ClsCell)
                           row rowspan) xs st = (st.1, st.2 + length xs))
      as Hfold.
    { induction xs as [|x xs IH]; intros [hdict colnum].
      - cbn. by rewrite Nat.add_0_r.
      - cbn [fold_left length]. unfold span_step at 2, range. rewrite Hz.
        cbn [seq fold_left]. rewrite IH. cbn [fst snd]. f_equal. lia. }
    by rewrite Hfold, length_seq.
Qed.

End Spans.

(** ** Tables without row spans *)

Lemma set_row_lookup row cs (hdict : grid) :
  hdict !! row = None ->
  default ∅ (set_row row cs hdict !! row) = map_seq 0 cs.
Proof.
  intros Hfree. destruct cs as [|c cs]; simpl; [by rewrite Hfree|].
  by rewrite lookup_insert_eq.
Qed.

Lemma set_row_again row cs cs' (hdict : grid) :
  cs' <> [] ->
  <[row := map_seq 0 cs']> (set_row row cs hdict) = set_row row cs' hdict.
Proof.
  intros Hne. destruct cs' as [|c' cs']; [done|].
  destruct cs as [|c cs]; simpl; [done|]. by rewrite insert_insert_eq.
Qed.

Lemma span_step_unit cell row (hdict : grid) (cs : list text_element) i :
  default ∅ (hdict !! row) = map_seq 0 cs ->
  span_step cell row 1 (hdict, length cs) i =
  (<[row := map_seq 0 (cs ++ [cell])]> hdict, S (length cs)).
Proof. intros Hd. by rewrite <- (span_loops_unit cell row hdict cs Hd). Qed.

(** A cell over [n] columns and one row, read into a free row that
    holds [cs] so far. *)
Lemma span_steps_cols cell row xs cs (hdict : grid) :
  hdict !! row = None ->
  fold_left (span_step cell row 1) xs (set_row row cs hdict, length cs) =
  (set_row row (cs ++ replicate (length xs) cell) hdict,
   length cs + length xs).
Proof.
  intros Hfree. revert cs. induction xs as [|x xs IH]; intros cs.
  { simpl. by rewrite app_nil_r, Nat.add_0_r. }
  cbn [fold_left]. rewrite span_step_unit by by apply set_row_lookup.
  rewrite set_row_again by by destruct cs.
  replace (S (length cs)) with (length (cs ++ [cell]))
    by (rewrite length_app; simpl; lia).
  rewrite IH. rewrite <- app_assoc. cbn [app replicate length].
  rewrite length_app. simpl. f_equal. lia.
Qed.

Section SingleRows.

Variable _css : string -> element -> list element.
Variable _parse_text :
  element -> Refs -> Specials -> element_cls -> text_element.

Local Abbreviation expand refs specials :=
  (flat_map (fun td => replicate (colspan_of td)
                         (_parse_text td refs specials ClsCell))).

Lemma single_row_cells refs specials row tds (hdict : grid) :
  Forall (fun td => exists colspan, cell_span td = Ok (colspan, 1%Z)) tds ->
  hdict !! row = None ->
  for_each (table_cell _parse_text refs specials row) tds (hdict, 0) =
  Ok (set_row row (expand refs specials tds) hdict,
      length (expand refs specials tds)).
Proof.
  intros Hone Hfree. induction tds as [|td tds IH] using rev_ind; [done|].
  apply Forall_app in Hone as [Hone Htd].
  rewrite Forall_singleton in Htd. destruct Htd as [colspan Hspan].
  rewrite for_each_app, (IH Hone). cbn [for_each].
  unfold table_cell. rewrite Hspan. cbn [mbind result_bind].
  unfold span_loops, range. rewrite span_steps_cols by done.
  rewrite length_seq, flat_map_app. cbn [flat_map].
  assert (colspan_of td = Z.to_nat colspan) as ->
      by (unfold colspan_of; by rewrite Hspan).
  by rewrite app_nil_r, length_app, length_replicate.
Qed.

Lemma raw_grid_snoc_set_row raw cs :
  raw_grid (raw ++ [cs]) = set_row (length raw) cs (raw_grid raw).
Proof. rewrite raw_grid_snoc. by destruct cs. Qed.

Lemma single_rows_grid els refs specials :
  single_rows _css els ->
  table_grid _css _parse_text els refs specials =
  Ok (raw_grid (expanded_layout _css _parse_text els refs specials)).
Proof.
  unfold table_grid, single_rows, enumerate.
  induction els as [|tr els IH] using rev_ind; intros Hone.
  - simpl. unfold raw_grid. simpl. by rewrite omap_empty.
  - apply Forall_app in Hone as [Hone Htr].
    rewrite Forall_singleton in Htr.
    rewrite zip_seq_app, for_each_app, (IH Hone).
    cbn [for_each zip_with seq length Nat.add].
    unfold table_row.
    rewrite (single_row_cells refs specials (length els) _ _ Htr).
    2:{ destruct (raw_grid _ !! length els) eqn:E; [|done].
        assert (length els <
                length (expanded_layout _css _parse_text els refs specials)).
        { apply raw_grid_keys. by eexists. }
        unfold expanded_layout in *. rewrite length_map in *. lia. }
    cbn [fmap result_fmap fst].
    unfold expanded_layout. rewrite map_app. cbn [map].
    by rewrite raw_grid_snoc_set_row, length_map.
Qed.

(** X18.  In a table without row spans every cell is repeated over the
    columns it spans, and a cell whose column range is reversed is left
    out; the returned rows are these rows without those that have no
    cell, each padded on the right with empty cells to the widest
    one. *)
Theorem single_rows_expanded els refs specials :
  single_rows _css els ->
  let raw := expanded_layout _css _parse_text els refs specials in
  let kept := filter (fun cs => 0 < length cs) raw in
  _parse_table_rows _css _parse_text els refs specials =
  Ok (map (pad_to (max_width kept)) kept).
Proof.
  intros Hone raw kept. unfold _parse_table_rows.
  rewrite (single_rows_grid _ _ _ Hone). cbn [fmap result_fmap].
  rewrite finish_rows_eq, grid_rows_raw_grid. fold raw. fold kept. f_equal.
  apply kept_rows_pass. subst kept.
  apply Forall_forall. by intros cs [Hcs _]%list_elem_of_filter.
Qed.

End SingleRows.

Lemma single_rows_expanded_witness :
  single_rows css_select colspan_table /\
  expanded_layout css_select text_of colspan_table [] [] =
    [[Cell "a"; Cell "a"; Cell "b"]; [Cell "c"; Cell "d"; Cell "e"]] /\
  _parse_table_rows css_select text_of colspan_table [] [] =
    Ok [[Cell "a"; Cell "a"; Cell "b"]; [Cell "c"; Cell "d"; Cell "e"]].
Proof.
  assert (single_rows css_select colspan_table) as Hone.
  { unfold single_rows, colspan_table.
    repeat constructor; eexists; vm_compute; reflexivity. }
  split; [exact Hone|]. split; [vm_compute; reflexivity|].
  rewrite (single_rows_expanded css_select text_of colspan_table [] [] Hone).
  vm_compute. reflexivity.
Defined.

Lemma span_cell_block_witness :
  exists hdict cols,
    table_grid css_select text_of block_table [] [] = Ok hdict /\
    length cols = 2 /\ NoDup cols /\
    forall j, j < 2 ->
      exists d,
        hdict !! (0 + j) = Some d /\
        (forall col, col ∈ cols -> d !! col = Some (Cell "b")) /\
        (content (Cell "b") <> "" ->
         pad_to (max_width (grid_rows hdict)) (row_cells d) ∈
           [[Cell "a"; Cell "b"; Cell "b"]; [Cell "c"; Cell "b"; Cell "b"]]).
Proof.
  apply (span_cell_block css_select text_of block_table [] []
           [[Cell "a"; Cell "b"; Cell "b"]; [Cell "c"; Cell "b"; Cell "b"]]
           0 (table_row_of [entry ∅ "a"; block_cell]) 1 block_cell 2 2);
    vm_compute; reflexivity.
Defined.

Lemma span_not_positive_witness :
  cell_span reversed_cell = Ok (0%Z, 2%Z) /\
  table_cell text_of [] [] 0 reversed_cell (∅, 3) = Ok (∅, 3).
Proof.
  assert (cell_span reversed_cell = Ok (0%Z, 2%Z)) as Hspan
      by (vm_compute; reflexivity).
  split; [exact Hspan|].
  apply (proj1 (span_not_positive text_of [] [] 0 reversed_cell (∅, 3)
                  0%Z 2%Z Hspan)).
  lia.
Defined.

(** ** Metadata: when a record comes back *)

Section MetadataResults.

Variable _css : string -> element -> list element.
Variables language_css pdf_url_css html_url_css : option string.



End MetadataResults.


(** With the three selectors defined by a subclass: the block with a
    title only fails on the article identifier, and the block with the
    identifier is read. *)
Example parse_metadata_with_selectors :
  _parse_metadata css_select (Some sample_language_css)
    (Some sample_pdf_url_css) (Some sample_html_url_css)
    meta_title_only [] [] = Raise IndexError
  /\
  _parse_metadata css_select (Some sample_language_css)
    (Some sample_pdf_url_css) (Some sample_html_url_css)
    meta_title_pii [] [] =
  Ok [ MetaData (Some "A title") None None None None None None None None None
         None None
         (Some "https://sciencedirect.com/science/article/pii/S0000000000000000") ].
Proof. split; vm_compute; reflexivity. Qed.

(** ** Figures: the cases of [_parse_figure] *)

(** The test of the list comprehension on one declared file. *)
Lemma large_test id f :
  (a ← str_in id (text f);
   if a : bool then str_in "_lrg" (text f) else Ok false) =
  match text f with
  | Some _ => Ok (names_large id f)
  | None => Raise TypeError
  end.
Proof.
  unfold names_large. destruct (text f) as [t|]; [|done]. cbn.
  by destruct (Py.contains id t).
Qed.

Lemma figure_filter id filenames :
  filter_r (fun filename =>
              a ← str_in id (text filename);
              if a : bool then str_in "_lrg" (text filename) else Ok false)
    filenames =
  if all_have_text filenames
  then Ok (filter (fun f => names_large id f = true) filenames)
  else Raise TypeError.
Proof.
  induction filenames as [|f fs IH]; [done|].
  cbn [filter_r all_have_text forallb]. rewrite large_test, IH.
  destruct (text f) as [t|] eqn:Et; [|done].
  rewrite bool_decide_eq_true_2 by by eexists.
  cbn [andb mbind result_bind].
  fold (all_have_text fs). destruct (all_have_text fs); [|done].
  cbn [mbind result_bind].
  destruct (names_large id f) eqn:En.
  - by rewrite filter_cons_True.
  - rewrite filter_cons_False; [done|]. by rewrite En.
Qed.

Lemma names_large_text id f :
  names_large id f = true ->
  exists t, text f = Some t /\ Py.contains id t = true /\
            Py.contains "_lrg" t = true.
Proof.
  unfold names_large. destruct (text f) as [t|]; [|done].
  intros [H1 H2]%andb_true_iff. by exists t.
Qed.

(** [split] returns at least one piece. *)
Lemma split_go_nonempty sep skip cur s : Py.split_go sep skip cur s <> [].
Proof.
  revert skip cur. induction s as [|a s IH]; intros skip cur; [done|].
  cbn [Py.split_go]. destruct skip as [|k]; [|apply IH].
  destruct (Py.startswith sep (String a s)); [done|apply IH].
Qed.

Lemma split_nonempty sep s : Py.split sep s <> [].
Proof. apply split_go_nonempty. Qed.

Section FigureResults.

Variable _css : string -> element -> list element.
Variable _parse_text :
  element -> Refs -> Specials -> element_cls -> text_element.

Local Abbreviation caption_of el refs specials :=
  (match _css figure_caption_css el with
   | c :: _ => _parse_text c refs specials ClsCaption
   | [] => Caption ""
   end).

(** [_parse_figure] in its cases, in the order in which the source
    reaches them. *)
Lemma parse_figure_cases el root refs specials :
  _parse_figure _css _parse_text el root refs specials =
  let filenames := _css img_filetypes_css root in
  match _css figure_link_css el with
  | [] =>
      if all_have_text filenames then Raise IndexError else Raise TypeError
  | l :: _ =>
      match attrib l !! "locator" with
      | None => Raise KeyError
      | Some id =>
          if all_have_text filenames then
            match attrib l !! href_key with
            | None => Raise KeyError
            | Some href =>
                match Py.split "/" href with
                | [] => Raise IndexError
                | part :: _ =>
                    match filter (fun f => names_large id f = true) filenames with
                    | [] => Raise AttributeError
                    | f :: _ =>
                        match text f with
                        | Some t =>
                            Ok [ Figure (caption_of el refs specials)
                                   (image_prefix +:+ Py.drop_chars 4 part
                                    +:+ "-" +:+ t) id ]
                        | None => Raise TypeError
                        end
                    end
                end
            end
          else Raise TypeError
      end
  end.
Proof.
  unfold _parse_figure. cbv zeta.
  destruct (_css figure_link_css el) as [|l rest].
  - cbn [mbind result_bind]. rewrite figure_filter.
    by destruct (all_have_text _).
  - unfold attrib_item, href_key.
    destruct (attrib l !! "locator") as [id|]; [|done].
    cbn [fmap result_fmap mbind result_bind]. rewrite figure_filter.
    destruct (all_have_text _); [|done].
    cbn [mbind result_bind index0].
    destruct (attrib l !! _) as [href|]; [|done].
    cbn [mbind result_bind].
    destruct (Py.split "/" href) as [|part parts]; [done|].
    cbn [mbind result_bind index0].
    destruct (filter _ _) as [|f cands]; [done|].
    cbn [filename_text mbind result_bind]. unfold str_add.
    destruct (text f) as [t|]; [|done].
    cbn [mbind result_bind Py.or_empty]. unfold image_prefix.
    by rewrite !string_app_assoc.
Qed.

(** X22.  When [_parse_figure] returns, the figure has a link with a
    [locator] and a target; every declared file has a text; the figure
    that comes back carries the locator as its id, and its address is
    made of the first part of the target without its first four
    characters and of the text of the first declared file that names
    the locator and [_lrg]. *)
Theorem parse_figure_returns el root refs specials figs :
  _parse_figure _css _parse_text el root refs specials = Ok figs ->
  exists l id href part f t,
    head (_css figure_link_css el) = Some l /\
    attrib l !! "locator" = Some id /\
    attrib l !! href_key = Some href /\
    head (Py.split "/" href) = Some part /\
    all_have_text (_css img_filetypes_css root) = true /\
    head (filter (fun f => names_large id f = true)
            (_css img_filetypes_css root)) = Some f /\
    text f = Some t /\
    Py.contains id t = true /\ Py.contains "_lrg" t = true /\
    figs = [ Figure (caption_of el refs specials)
               (image_prefix +:+ Py.drop_chars 4 part +:+ "-" +:+ t) id ].
Proof.
  rewrite parse_figure_cases. cbv zeta.
  destruct (_css figure_link_css el) as [|l rest];
    [by destruct (all_have_text _)|].
  destruct (attrib l !! "locator") as [id|] eqn:Eid; [|done].
  destruct (all_have_text _) eqn:Eall; [|done].
  destruct (attrib l !! href_key) as [href|] eqn:Ehref; [|done].
  destruct (Py.split "/" href) as [|part parts] eqn:Esplit; [done|].
  destruct (filter _ _) as [|f cands] eqn:Ef; [done|].
  destruct (text f) as [t|] eqn:Et; [|done].
  intros [= <-]. exists l, id, href, part, f, t.
  assert (names_large id f = true) as Hf.
  { assert (f ∈ filter (fun f => names_large id f = true)
                  (_css img_filetypes_css root)) as Hin
        by (rewrite Ef; apply elem_of_cons; by left).
    by apply list_elem_of_filter in Hin as [Hin _]. }
  apply names_large_text in Hf as (t' & Ht' & H1 & H2).
  assert (t' = t) as -> by congruence.
  rewrite Esplit, Ef. repeat split; done.
Qed.

(** X23.  For a figure without a link [_parse_figure] raises: [TypeError]
    when a declared file has no text, [IndexError] otherwise. *)
Theorem parse_figure_no_link_error el root refs specials :
  _css figure_link_css el = [] ->
  _parse_figure _css _parse_text el root refs specials =
  Raise (if all_have_text (_css img_filetypes_css root)
         then IndexError else TypeError).
Proof.
  intros Hlink. rewrite parse_figure_cases. cbv zeta. rewrite Hlink.
  by destruct (all_have_text _).
Qed.

(** X24.  For a figure with a link, when no declared file names the locator
    and [_lrg], [_parse_figure] raises [AttributeError]: the text of
    the empty string is asked for. *)
Theorem parse_figure_no_image el root refs specials l rest id href :
  _css figure_link_css el = l :: rest ->
  attrib l !! "locator" = Some id ->
  attrib l !! href_key = Some href ->
  all_have_text (_css img_filetypes_css root) = true ->
  Forall (fun f => names_large id f = false) (_css img_filetypes_css root) ->
  _parse_figure _css _parse_text el root refs specials = Raise AttributeError.
Proof.
  intros Hlink Hid Hhref Hall Hnone. rewrite parse_figure_cases. cbv zeta.
  rewrite Hlink, Hid, Hall, Hhref.
  assert (filter (fun f => names_large id f = true)
            (_css img_filetypes_css root) = []) as ->.
  { clear Hall. induction Hnone as [|f fs Hf _ IH]; [done|].
    rewrite filter_cons_False; [exact IH|]. by rewrite Hf. }
  destruct (Py.split "/" href) as [|part parts] eqn:Esplit; [|done].
  by apply split_nonempty in Esplit.
Qed.

End FigureResults.

Lemma parse_figure_returns_witness :
  exists l id href part f t,
    head (css_select figure_link_css figure_with_link) = Some l /\
    attrib l !! "locator" = Some id /\
    attrib l !! href_key = Some href /\
    head (Py.split "/" href) = Some part /\
    all_have_text
      (css_select img_filetypes_css
         (document_of [figure_with_link; attachment "gr1_lrg.jpg"])) = true /\
    head (filter (fun f => names_large id f = true)
            (css_select img_filetypes_css
               (document_of [figure_with_link; attachment "gr1_lrg.jpg"])))
    = Some f /\
    text f = Some t /\
    Py.contains id t = true /\ Py.contains "_lrg" t = true /\
    [ Figure (Caption "A caption")
        "https://ars.els-cdn.com/content/image/1-s2.0-S0000000000000000-gr1_lrg.jpg"
        "gr1" ] =
    [ Figure
        (match css_select figure_caption_css figure_with_link with
         | c :: _ => text_of c [] [] ClsCaption
         | [] => Caption ""
         end)
        (image_prefix +:+ Py.drop_chars 4 part +:+ "-" +:+ t) id ].
Proof.
  apply (parse_figure_returns css_select text_of figure_with_link
           (document_of [figure_with_link; attachment "gr1_lrg.jpg"]) [] []).
  vm_compute. reflexivity.
Defined.

Lemma parse_figure_no_link_error_witness :
  css_select figure_link_css figure_no_link = [] /\
  _parse_figure css_select text_of figure_no_link
    (document_of [figure_no_link; attachment "gr1_lrg.jpg"]) [] [] =
  Raise (if all_have_text
              (css_select img_filetypes_css
                 (document_of [figure_no_link; attachment "gr1_lrg.jpg"]))
         then IndexError else TypeError).
Proof.
  split; [vm_compute; reflexivity|].
  apply (parse_figure_no_link_error css_select text_of figure_no_link
           (document_of [figure_no_link; attachment "gr1_lrg.jpg"]) [] []).
  vm_compute. reflexivity.
Defined.

Lemma parse_figure_no_image_witness :
  _parse_figure css_select text_of figure_with_link
    (document_of [figure_with_link; attachment "gr2_lrg.jpg"]) [] [] =
  Raise AttributeError.
Proof.
  apply (parse_figure_no_image css_select text_of figure_with_link
           (document_of [figure_with_link; attachment "gr2_lrg.jpg"]) [] []
           (Element "ce:link"
              {[ "locator" := "gr1";
                 "{http://www.w3.org/1999/xlink}href" := "pii:S0000000000000000/gr1" ]}
              None None [])
           [] "gr1" "pii:S0000000000000000/gr1");
    try (vm_compute; reflexivity).
  repeat constructor.
Defined.

(** ** Whole documents *)

Lemma for_each_stops {A S : Type} (body : A -> S -> result S) xs s x :
  x ∈ xs -> (forall s0, exists e, body x s0 = Raise e) ->
  exists e, for_each body xs s = Raise e.
Proof.
  intros Hx Hbody. revert s. induction xs as [|y ys IH]; intros s.
  { by apply elem_of_nil in Hx. }
  cbn [for_each]. destruct (body y s) as [s'|e] eqn:E; [|by eexists].
  apply elem_of_cons in Hx as [->|Hx]; [|by apply IH].
  destruct (Hbody s) as [e He]. congruence.
Qed.

Section Documents.

Variable _css : string -> element -> list element.
Variable _parse_text :
  element -> Refs -> Specials -> element_cls -> text_element.
Variable _make_tree : string -> option element.
Variables clean strip_els_xml : element -> element.
Variable getparent : element -> option element.
Variable _find_table : element -> list table_ref.
Variable _parse_reference : element -> list doc_element.
Variable _parse_table :
  (list element -> Refs -> Specials -> result (list (list text_element))) ->
  table_ref -> Refs -> Specials -> result (list doc_element).
Variable _parse_element : element -> Specials -> Refs -> list doc_element.

(** X25.  One figure without a link anywhere under the cleaned root, and
    [parse] returns no document at all: it raises, and what it raises
    is no reader error. *)
Theorem parse_figure_aborts fstring tree root rest fig :
  _make_tree fstring = Some tree -> _css root_css tree = root :: rest ->
  fig ∈ _css figure_css (run_cleaners clean strip_els_xml root) ->
  _css figure_link_css fig = [] ->
  exists e,
    parse _css _parse_text _make_tree clean strip_els_xml getparent
      _find_table _parse_reference _parse_table _parse_element fstring
    = Raise e /\ e <> ReaderError.
Proof.
  intros Ht Hr Hfig Hlink. unfold parse. rewrite Ht, Hr.
  cbn [index0 mbind result_bind].
  match goal with
  | |- context [for_each (figure_region ?c ?p ?r ?refs) ?figs ?sp] =>
      destruct (for_each_stops (figure_region c p r refs) figs sp fig Hfig)
        as [e He];
      [|pose proof (for_each_no_reader_error (figure_region c p r refs) figs sp)
          as Hno]
  end.
  - intros sp. unfold figure_region.
    destruct (parse_figure_no_link _css _parse_text fig
                (run_cleaners clean strip_els_xml root)
                (map (fun reference =>
                        (getparent reference, _parse_reference reference))
                   (_css reference_css (run_cleaners clean strip_els_xml root)))
                sp Hlink) as [e ->].
    by eexists.
  - rewrite He. exists e. split; [done|]. intros ->. revert He. apply Hno.
    intros f sp. unfold figure_region.
    apply bind_no_reader_error; [apply parse_figure_no_reader_error|done].
Qed.

End Documents.

Lemma parse_figure_aborts_witness :
  exists e,
    parse_tree (document_of [figure_with_link; attachment "gr1_lrg.jpg";
                             figure_no_link]) "x" = Raise e /\
    e <> ReaderError.
Proof.
  apply (parse_figure_aborts css_select text_of
           (constant_tree (document_of [figure_with_link;
                                        attachment "gr1_lrg.jpg";
                                        figure_no_link]))
           (fun el => el) (fun el => el) (fun _ => None) (fun _ => [])
           (fun _ => []) (fun _ _ _ _ => Ok [])
           (fun _ specials _ => flat_map snd (rev specials))
           "x"
           (document_of [figure_with_link; attachment "gr1_lrg.jpg";
                         figure_no_link])
           (document_of [figure_with_link; attachment "gr1_lrg.jpg";
                         figure_no_link])
           [] figure_no_link).
  - reflexivity.
  - vm_compute. reflexivity.
  - vm_compute. apply elem_of_cons. right. apply elem_of_cons. by left.
  - vm_compute. reflexivity.
Defined.

(** ** Detection, in full *)

(** X26.  [detect] answers yes exactly when the content holds the namespace
    declaration and the file name is absent, empty, or ends in
    [.xml]. *)
Theorem detect_iff fstring fname :
  detect fstring fname = true <->
  (exists pre post, fstring = pre +:+ elsevier_ns +:+ post) /\
  (fname = None \/ fname = Some "" \/
   exists stem, fname = Some (stem +:+ ".xml")).
Proof.
  unfold detect. rewrite <- contains_spec.
  destruct fname as [[|a name]|]; cbn [Py.truthy Py.or_empty andb].
  - destruct (Py.contains elsevier_ns fstring).
    + split; [|done]. intros _. split; [done|]. right; by left.
    + split; [done|]. by intros [? _].
  - destruct (Py.endswith ".xml" (String a name)) eqn:E; cbn [negb].
    + apply endswith_spec in E as [stem E].
      destruct (Py.contains elsevier_ns fstring).
      * split; [|done]. intros _. split; [done|]. right; right.
        exists stem. by rewrite E.
      * split; [done|]. by intros [? _].
    + split; [done|]. intros [_ [H|[H|[stem H]]]]; [done..|].
      injection H as H.
      assert (Py.endswith ".xml" (String a name) = true) as E'
          by (apply endswith_spec; by exists stem).
      congruence.
  - destruct (Py.contains elsevier_ns fstring).
    + split; [|done]. intros _. split; [done|by left].
    + split; [done|]. by intros [? _].
Qed.

(** ** Spans from column names *)

Lemma parse_colname_col td name ds :
  decimal_digits ds ->
  attrib td !! name = Some ("col" +:+ numeral ds) ->
  parse_colname td name = Ok (numeral_value ds).
Proof.
  intros Hds H. unfold parse_colname, get_attr. rewrite H.
  rewrite split_col_digits by (apply numeral_digits, Hds).
  rewrite filter_cons_False by done.
  rewrite filter_cons_True by (apply numeral_nonempty, Hds).
  simpl. by apply int_numeral.
Qed.

(** X27.  A cell from column [colA] to column [colB] with [morerows="M"]
    spans [B - A + 1] columns and [M + 1] rows. *)
Theorem cell_span_columns td a b m :
  decimal_digits a -> decimal_digits b -> decimal_digits m ->
  attrib td !! "namest" = Some ("col" +:+ numeral a) ->
  attrib td !! "nameend" = Some ("col" +:+ numeral b) ->
  attrib td !! "morerows" = Some (numeral m) ->
  cell_span td =
  Ok ((numeral_value b - numeral_value a + 1)%Z, (numeral_value m + 1)%Z).
Proof.
  intros Ha Hb Hm Hst Hend Hmore. unfold cell_span.
  rewrite (parse_colname_col td "namest" a Ha Hst).
  rewrite (parse_colname_col td "nameend" b Hb Hend).
  cbn [mbind result_bind]. unfold get_attr. rewrite Hmore.
  by rewrite (int_numeral m Hm).
Qed.

Lemma cell_span_columns_witness :
  cell_span block_cell = Ok (2%Z, 2%Z).
Proof.
  apply (cell_span_columns block_cell [2] [3] [1]);
    try (split; [done|repeat constructor; lia]);
    vm_compute; reflexivity.
Defined.
